(** * SuperHaxagon: a shallow embedding of [SuperHaxagon.cpp]

    The program attaches to a running game process, reads its wall table
    through [ReadProcessMemory], picks the lane whose nearest wall is the
    farthest away and teleports the player there through
    [WriteProcessMemory].

    Conventions of the embedding:
    - [DWORD], [BYTE] and [SIZE_T] values are integers of [Z]; wrap-around of
      32-bit arithmetic is written out with [wrap32];
    - the address space of the target is a finite map from addresses to
      bytes, absent keys being pages that cannot be accessed;
    - a failed [assert] and an integer division by zero end the run: they
      are the [Abort] outcomes;
    - [float] is IEEE-754 binary32 with round-to-nearest-even, taken from the
      specification of floating-point numbers of the standard library; every
      operation is rounded to binary32, as the SSE instructions of an x86
      build do, and a conversion to an integer has no check, as in the
      source. *)

From Stdlib Require Import ZArith Lia List Bool.
From Stdlib Require Import Floats.SpecFloat.
From stdpp Require Import base option list gmap.

Local Open Scope Z_scope.

(** ** Outcomes of a computation *)

Inductive fault : Type :=
  | AssertFailure      (* [assert(...)] evaluated to false *)
  | DivisionByZero     (* [x / 0] or [x % 0] on integers *)
  | IndexOutOfRange.   (* [v[i]] with [i >= v.size()] *)

Inductive run (A : Type) : Type :=
  | Done (a : A)
  | Abort (f : fault).

Arguments Done {A} a.
Arguments Abort {A} f.

#[global] Instance run_ret : MRet run := fun A a => Done a.

#[global] Instance run_bind : MBind run := fun A B k m =>
  match m with
  | Done a => k a
  | Abort f => Abort f
  end.

Definition assert {A : Type} (cond : bool) (a : A) : run A :=
  if cond then Done a else Abort AssertFailure.

Definition udiv (a b : Z) : run Z :=
  if b =? 0 then Abort DivisionByZero else Done (a / b).

Definition umod (a b : Z) : run Z :=
  if b =? 0 then Abort DivisionByZero else Done (a mod b).

(** ** Machine integers and their byte representation *)

Definition DWORD_MAX : Z := 4294967295.

Definition wrap32 (z : Z) : Z := z mod 4294967296.

(** Little-endian object representation, as on x86. *)
Fixpoint to_bytes (n : nat) (v : Z) : list Z :=
  match n with
  | O => []
  | S k => v mod 256 :: to_bytes k (v / 256)
  end.

Fixpoint of_bytes (bs : list Z) : Z :=
  match bs with
  | [] => 0
  | b :: rest => b + 256 * of_bytes rest
  end.

(** ** The operating system: the address space of the target

    [ReadProcessMemory] and [WriteProcessMemory] copy bytes until they reach
    an address that cannot be accessed; they report success exactly when the
    whole range was copied, and always report the number of bytes copied. *)

Module Win32.

Fixpoint peek (p : gmap Z Z) (address : Z) (len : nat) : list Z :=
  match len with
  | O => []
  | S k =>
      match p !! address with
      | Some b => b :: peek p (address + 1) k
      | None => []
      end
  end.

Fixpoint poke (p : gmap Z Z) (address : Z) (data : list Z) : gmap Z Z * Z :=
  match data with
  | [] => (p, 0)
  | b :: rest =>
      match p !! address with
      | Some _ =>
          let '(p', copied) := poke (<[address := b]> p) (address + 1) rest in
          (p', copied + 1)
      | None => (p, 0)
      end
  end.

Record read_result : Type :=
  { rd_success : bool; rd_count : Z; rd_data : list Z }.

Record write_result : Type :=
  { wr_success : bool; wr_count : Z; wr_target : gmap Z Z }.

Definition ReadProcessMemory (p : gmap Z Z) (address size : Z) : read_result :=
  let data := peek p address (Z.to_nat size) in
  {| rd_success := Z.of_nat (length data) =? size;
     rd_count := Z.of_nat (length data);
     rd_data := data |}.

Definition WriteProcessMemory (p : gmap Z Z) (address : Z) (data : list Z)
  : write_result :=
  let '(p', copied) := poke p address data in
  {| wr_success := copied =? Z.of_nat (length data);
     wr_count := copied;
     wr_target := p' |}.

End Win32.

(** ** [struct Memory] *)

Module Memory.
Import Win32.

(** What [Read] does with the answer of the system call:
    [assert(success && numRead == sizeof(T)); return data;]. *)
Definition read_checked (r : read_result) (requested : Z) : run (list Z) :=
  assert (rd_success r && (rd_count r =? requested)) (rd_data r).

(** [assert(success && numWritten == sizeof(T));] *)
Definition write_checked (r : write_result) (requested : Z) : run (gmap Z Z) :=
  assert (wr_success r && (wr_count r =? requested)) (wr_target r).

(** [Read<T>(address)] and [Read<T>(address, data)], on the [sizeof(T)]
    bytes of the object representation. *)
Definition Read (p : gmap Z Z) (address sizeof_T : Z) : run (list Z) :=
  read_checked (ReadProcessMemory p address sizeof_T) sizeof_T.

Definition ReadBytes (p : gmap Z Z) (address length : Z) : run (list Z) :=
  read_checked (ReadProcessMemory p address length) length.

(** [Write<T>(address, data)]; [data] is the object representation of the
    value, [sizeof(T)] bytes long. *)
Definition Write (p : gmap Z Z) (address : Z) (data : list Z) : run (gmap Z Z) :=
  write_checked (WriteProcessMemory p address data) (Z.of_nat (length data)).

Definition Read_DWORD (p : gmap Z Z) (address : Z) : run Z :=
  bs ← Read p address 4; Done (of_bytes bs).

Definition Write_DWORD (p : gmap Z Z) (address value : Z) : run (gmap Z Z) :=
  Write p address (to_bytes 4 value).

Definition Write_BYTE (p : gmap Z Z) (address value : Z) : run (gmap Z Z) :=
  Write p address (to_bytes 1 value).

End Memory.

(** ** IEEE-754 binary32, the [float] of the program *)

Module Float32.

Definition prec : Z := 24.
Definition emax : Z := 128.

(** [static_cast<float>(n)] and the implicit conversion of a [DWORD]
    operand of a [float] operation. *)
Definition of_DWORD (n : Z) : spec_float := binary_normalize prec emax n 0 false.

Definition div (x y : spec_float) : spec_float := SFdiv prec emax x y.
Definition mul (x y : spec_float) : spec_float := SFmul prec emax x y.

(** The integer part of a float, the fraction discarded. *)
Definition truncate (f : spec_float) : option Z :=
  match f with
  | S754_zero _ => Some 0
  | S754_finite s m e =>
      let magnitude :=
        match e with
        | Zneg k => Z.pos m / 2 ^ Z.pos k
        | _ => Z.pos m * 2 ^ e
        end in
      Some (if s then - magnitude else magnitude)
  | S754_infinity _ | S754_nan => None
  end.

(** [static_cast<DWORD>(f)]. The source converts without any check and goes
    on with the result. Where the integer part is a [DWORD] the result is
    that integer. Where it is not, C++ does not define the result; the
    model takes the one of an x86-64 build, which converts to a 64-bit
    integer ([cvttss2si]) and keeps the low 32 bits: the integer part
    reduced modulo [2^32], and 0 for what does not fit 64 bits (the low half
    of the integer indefinite value [2^63]). *)
Definition to_DWORD (f : spec_float) : Z :=
  match truncate f with
  | Some t =>
      if (-9223372036854775808 <=? t) && (t <? 9223372036854775808)
      then wrap32 t
      else 0
  | None => 0
  end.

End Float32.

(** ** [struct SuperHexagonApi] *)

(** [struct Wall], 20 bytes, packed. *)
Record Wall : Type :=
  { slot : Z;          (* DWORD *)
    distance : Z;      (* DWORD *)
    enabled : Z;       (* BYTE *)
    fill1 : list Z;    (* BYTE[3] *)
    unk2 : Z;          (* DWORD *)
    unk3 : Z }.        (* DWORD *)

Definition sizeof_Wall : Z := 20.

Definition Wall_of_bytes (bs : list Z) : Wall :=
  {| slot := of_bytes (take 4 bs);
     distance := of_bytes (take 4 (drop 4 bs));
     enabled := of_bytes (take 1 (drop 8 bs));
     fill1 := take 3 (drop 9 bs);
     unk2 := of_bytes (take 4 (drop 12 bs));
     unk3 := of_bytes (take 4 (drop 16 bs)) |}.

(** The [count] consecutive records held by a buffer. *)
Fixpoint Walls_of_bytes (count : nat) (bs : list Z) : list Wall :=
  match count with
  | O => []
  | S k => Wall_of_bytes (take 20 bs) :: Walls_of_bytes k (drop 20 bs)
  end.

Module Offsets.
Definition BasePointer : Z := 0x694B00.
Definition NumSlots : Z := 0x1BC.
Definition NumWalls : Z := 0x2930.
Definition FirstWall : Z := 0x220.
Definition PlayerAngle : Z := 0x2958.
Definition PlayerAngle2 : Z := 0x2954.
Definition MouseDownLeft : Z := 0x42858.
Definition MouseDownRight : Z := 0x4285A.
Definition MouseDown : Z := 0x42C45.
Definition WorldAngle : Z := 0x1AC.
End Offsets.

Record SuperHexagonApi : Type :=
  { appBase : Z;            (* DWORD *)
    walls : list Wall }.    (* std::vector<Wall> *)

Module Api.
Import Memory.

(** [appBase + Offsets::X], a [DWORD] sum. *)
Definition field (api : SuperHexagonApi) (offset : Z) : Z :=
  wrap32 (appBase api + offset).

(** The constructor. *)
Definition attach (p : gmap Z Z) : run SuperHexagonApi :=
  base ← Read_DWORD p Offsets.BasePointer;
  assert (negb (base =? 0)) {| appBase := base; walls := [] |}.

Definition GetNumSlots (api : SuperHexagonApi) (p : gmap Z Z) : run Z :=
  Read_DWORD p (field api Offsets.NumSlots).

Definition GetNumWalls (api : SuperHexagonApi) (p : gmap Z Z) : run Z :=
  Read_DWORD p (field api Offsets.NumWalls).

(** [walls.resize(numWalls)] followed by the bulk read into [walls.data()].
    The byte count [sizeof(Wall) * numWalls] is not wrapped: where [SIZE_T]
    has 32 bits a count that large is refused by [resize] beforehand.
    Exhaustion of the bot's own heap is not part of the model. *)
Definition UpdateWalls (api : SuperHexagonApi) (p : gmap Z Z) : run SuperHexagonApi :=
  numWalls ← GetNumWalls api p;
  buffer ← ReadBytes p (field api Offsets.FirstWall) (sizeof_Wall * numWalls);
  Done {| appBase := appBase api;
          walls := Walls_of_bytes (Z.to_nat numWalls) buffer |}.

Definition GetPlayerAngle (api : SuperHexagonApi) (p : gmap Z Z) : run Z :=
  Read_DWORD p (field api Offsets.PlayerAngle).

(** [360 / GetNumSlots() * (slot % GetNumSlots()) + (180 / GetNumSlots())],
    its operands taken from left to right. The order does not matter to the
    outcome: the three calls read the same memory, so they all fail or all
    return the same count. *)
Definition SetPlayerSlot (api : SuperHexagonApi) (p : gmap Z Z) (slot : Z)
  : run (gmap Z Z) :=
  n1 ← GetNumSlots api p;
  q ← udiv 360 n1;
  n2 ← GetNumSlots api p;
  r ← umod slot n2;
  n3 ← GetNumSlots api p;
  h ← udiv 180 n3;
  let angle := wrap32 (wrap32 (q * r) + h) in
  p1 ← Write_DWORD p (field api Offsets.PlayerAngle) angle;
  Write_DWORD p1 (field api Offsets.PlayerAngle2) angle.

(** [static_cast<DWORD>(angle / 360.0f * GetNumSlots())] *)
Definition GetPlayerSlot (api : SuperHexagonApi) (p : gmap Z Z) : run Z :=
  a ← GetPlayerAngle api p;
  let angle := Float32.of_DWORD a in
  n ← GetNumSlots api p;
  Done (Float32.to_DWORD
          (Float32.mul (Float32.div angle (Float32.of_DWORD 360)) (Float32.of_DWORD n))).

Definition StartMovingLeft (api : SuperHexagonApi) (p : gmap Z Z) : run (gmap Z Z) :=
  p1 ← Write_BYTE p (field api Offsets.MouseDownLeft) 1;
  Write_BYTE p1 (field api Offsets.MouseDown) 1.

Definition StartMovingRight (api : SuperHexagonApi) (p : gmap Z Z) : run (gmap Z Z) :=
  p1 ← Write_BYTE p (field api Offsets.MouseDownRight) 1;
  Write_BYTE p1 (field api Offsets.MouseDown) 1.

Definition ReleaseMouse (api : SuperHexagonApi) (p : gmap Z Z) : run (gmap Z Z) :=
  p1 ← Write_BYTE p (field api Offsets.MouseDownLeft) 0;
  p2 ← Write_BYTE p1 (field api Offsets.MouseDownRight) 0;
  Write_BYTE p2 (field api Offsets.MouseDown) 0.

Definition GetWorldAngle (api : SuperHexagonApi) (p : gmap Z Z) : run Z :=
  Read_DWORD p (field api Offsets.WorldAngle).

Definition SetWorldAngle (api : SuperHexagonApi) (p : gmap Z Z) (angle : Z)
  : run (gmap Z Z) :=
  Write_DWORD p (field api Offsets.WorldAngle) angle.

End Api.

(** ** [main]: the slot selection and one turn of the loop *)

(** The [min] macro of [Windows.h]: [((a) < (b)) ? (a) : (b)]. *)
Definition min_macro (a b : Z) : Z := if a <? b then a else b.

(** The body of the lambda given to [std::for_each]. *)
Definition visit_wall (numSlots : Z) (minDistances : list Z) (a : Wall)
  : run (list Z) :=
  if (0 <? distance a) && negb (enabled a =? 0) then
    i ← umod (slot a) numSlots;
    match minDistances !! Z.to_nat i with
    | Some current => Done (<[Z.to_nat i := min_macro current (distance a)]> minDistances)
    | None => Abort IndexOutOfRange
    end
  else Done minDistances.

Fixpoint for_each_wall (numSlots : Z) (ws : list Wall) (minDistances : list Z)
  : run (list Z) :=
  match ws with
  | [] => Done minDistances
  | a :: rest =>
      updated ← visit_wall numSlots minDistances a;
      for_each_wall numSlots rest updated
  end.

(** [std::max_element] followed by [std::distance] from [begin()]: the
    position of the first greatest element, and [end() - begin() = 0] on an
    empty range. *)
Fixpoint max_element_scan (rest : list Z) (position largest largest_value : Z) : Z :=
  match rest with
  | [] => largest
  | x :: tail =>
      if largest_value <? x
      then max_element_scan tail (position + 1) position x
      else max_element_scan tail (position + 1) largest largest_value
  end.

Definition max_element (v : list Z) : Z :=
  match v with
  | [] => 0
  | x :: rest => max_element_scan rest 1 0 x
  end.

(** Lines 240 to 250 of [main], entered when [api.walls] is not empty. *)
Definition select_slot (numSlots : Z) (ws : list Wall) : run Z :=
  let minDistances := replicate (Z.to_nat numSlots) DWORD_MAX in
  filled ← for_each_wall numSlots ws minDistances;
  Done (wrap32 (max_element filled)).

(** Lines 239 to 250 as a function of the slot count and of the wall list,
    the [SlotSelector] of the specification: no decision when [api.walls]
    is empty, and the selected slot otherwise. *)
Definition SlotSelector (numSlots : Z) (ws : list Wall) : run (option Z) :=
  match ws with
  | [] => Done None
  | _ :: _ => targetSlot ← select_slot numSlots ws; Done (Some targetSlot)
  end.

Inductive event : Type :=
  | StatusLine (targetSlot worldAngle : Z)   (* the line sent to [std::cout] *)
  | Sleep (milliseconds : Z)
  | ClearScreen.                             (* [system("cls")] *)

Record World : Type :=
  { target : gmap Z Z;      (* memory of the game *)
    trace : list event }.   (* what the bot did to its own console, oldest first *)

(** The body of [for (;;)]. *)
Definition iteration (api : SuperHexagonApi) (w : World)
  : run (SuperHexagonApi * World) :=
  api' ← Api.UpdateWalls api (target w);
  w' ←
    match walls api' with
    | [] => Done w
    | _ :: _ =>
        numSlots ← Api.GetNumSlots api' (target w);
        targetSlot ← select_slot numSlots (walls api');
        worldAngle ← Api.GetWorldAngle api' (target w);
        let printed := trace w ++ [StatusLine targetSlot worldAngle] in
        moved ← Api.SetPlayerSlot api' (target w) targetSlot;
        Done {| target := moved; trace := printed |}
    end;
  Done (api', {| target := target w'; trace := trace w' ++ [Sleep 10; ClearScreen] |}).

(** [fuel] turns of the loop, which the program itself never leaves. *)
Fixpoint main_loop (fuel : nat) (api : SuperHexagonApi) (w : World)
  : run (SuperHexagonApi * World) :=
  match fuel with
  | O => Done (api, w)
  | S k => '(api', w') ← iteration api w; main_loop k api' w'
  end.

(** ** Notions used to state the properties *)

(** A wall that the selection takes into account. *)
Definition live (a : Wall) : bool := (0 <? distance a) && negb (enabled a =? 0).

(** The per-slot minimum as the specification words it: the least distance
    among the live walls whose slot index reduces to [s] modulo the slot
    count, and the greatest [DWORD] when the lane has none. *)
Fixpoint nearest (slotCount : Z) (ws : list Wall) (s : Z) : Z :=
  match ws with
  | [] => DWORD_MAX
  | a :: rest =>
      if live a && (slot a mod slotCount =? s)
      then Z.min (distance a) (nearest slotCount rest s)
      else nearest slotCount rest s
  end.

Definition wall (s d e : Z) : Wall :=
  {| slot := s; distance := d; enabled := e; fill1 := [0; 0; 0]; unk2 := 0; unk3 := 0 |}.

(** The frame of the first scenario of the specification. *)
Definition scenario_walls : list Wall := [wall 0 50 1; wall 2 10 1].

(** The range of [size] bytes at [address] can be read and written. *)
Definition accessible (p : gmap Z Z) (address size : Z) : Prop :=
  forall x, address <= x < address + size -> is_Some (p !! x).

Definition accessibleb (p : gmap Z Z) (address size : Z) : bool :=
  forallb (fun x => match p !! x with Some _ => true | None => false end)
          (seqZ address size).

(** The value [GetPlayerSlot] computes from the two numbers it reads. *)
Definition float_slot (angle numSlots : Z) : run Z :=
  Done (Float32.to_DWORD
          (Float32.mul (Float32.div (Float32.of_DWORD angle) (Float32.of_DWORD 360))
                       (Float32.of_DWORD numSlots))).

(** A small address space for examples: the game data of an instance whose
    base address is [0x10000], holding the given slot count, wall count,
    player angle and wall records, with every other field at zero. *)
Definition example_api : SuperHexagonApi := {| appBase := 0x10000; walls := [] |}.

Definition block (address : Z) (bs : list Z) : list (Z * Z) :=
  zip (seqZ address (Z.of_nat (length bs))) bs.

Definition example_target (numSlots numWalls playerAngle : Z) (records : list Z)
  : gmap Z Z :=
  list_to_map
    (block (0x10000 + Offsets.NumSlots) (to_bytes 4 numSlots) ++
     block (0x10000 + Offsets.NumWalls) (to_bytes 4 numWalls) ++
     block (0x10000 + Offsets.FirstWall) records ++
     block (0x10000 + Offsets.PlayerAngle) (to_bytes 4 playerAngle) ++
     block (0x10000 + Offsets.PlayerAngle2) (to_bytes 4 playerAngle) ++
     block (0x10000 + Offsets.WorldAngle) (to_bytes 4 0) ++
     block (0x10000 + Offsets.MouseDownLeft) [0] ++
     block (0x10000 + Offsets.MouseDownRight) [0] ++
     block (0x10000 + Offsets.MouseDown) [0]).

(** [setMovement] of the specification: its three directions are the
    methods [StartMovingLeft], [StartMovingRight] and [ReleaseMouse]. *)
Inductive Movement : Type := MoveLeft | MoveRight | Released.

Definition setMovement (api : SuperHexagonApi) (p : gmap Z Z) (d : Movement)
  : run (gmap Z Z) :=
  match d with
  | MoveLeft => Api.StartMovingLeft api p
  | MoveRight => Api.StartMovingRight api p
  | Released => Api.ReleaseMouse api p
  end.

Fixpoint setMovements (api : SuperHexagonApi) (p : gmap Z Z) (ds : list Movement)
  : run (gmap Z Z) :=
  match ds with
  | [] => Done p
  | d :: rest => p' ← setMovement api p d; setMovements api p' rest
  end.

(** An input-state byte of the target is asserted when it is not zero. *)
Definition asserted (api : SuperHexagonApi) (p : gmap Z Z) (offset : Z) : Prop :=
  exists b, p !! Api.field api offset = Some b /\ b <> 0.

(** What a caller holds down, and the sequences of calls that release the
    mouse before they change direction. *)
Inductive grip : Type := Free | HoldsLeft | HoldsRight.

Fixpoint exclusive (g : grip) (ds : list Movement) : bool :=
  match ds with
  | [] => true
  | Released :: rest => exclusive Free rest
  | MoveLeft :: rest =>
      match g with HoldsRight => false | _ => exclusive HoldsLeft rest end
  | MoveRight :: rest =>
      match g with HoldsLeft => false | _ => exclusive HoldsRight rest end
  end.

(** What the target holds for each state of the caller's grip. *)
Definition grip_holds (api : SuperHexagonApi) (p : gmap Z Z) (g : grip) : Prop :=
  match g with
  | Free =>
      p !! Api.field api Offsets.MouseDownLeft = Some 0 /\
      p !! Api.field api Offsets.MouseDownRight = Some 0
  | HoldsLeft => p !! Api.field api Offsets.MouseDownRight = Some 0
  | HoldsRight => p !! Api.field api Offsets.MouseDownLeft = Some 0
  end.

(** Lane [s] holds no wall that the selection takes into account. *)
Definition free_lane (slotCount : Z) (ws : list Wall) (s : Z) : Prop :=
  Forall (fun a => live a = true -> slot a mod slotCount <> s) ws.

(** An address that belongs to neither player-angle field. *)
Definition outside_player_angle (api : SuperHexagonApi) (x : Z) : Prop :=
  (x < Api.field api Offsets.PlayerAngle \/ Api.field api Offsets.PlayerAngle + 4 <= x) /\
  (x < Api.field api Offsets.PlayerAngle2 \/ Api.field api Offsets.PlayerAngle2 + 4 <= x).

(** An address that is none of the three input-state bytes. *)
Definition outside_input_state (api : SuperHexagonApi) (x : Z) : Prop :=
  x <> Api.field api Offsets.MouseDownLeft /\
  x <> Api.field api Offsets.MouseDownRight /\
  x <> Api.field api Offsets.MouseDown.

(** The address of the record of index [i] in the wall table of the game. *)
Definition wall_address (api : SuperHexagonApi) (i : nat) : Z :=
  Api.field api Offsets.FirstWall + sizeof_Wall * Z.of_nat i.

(** The object representation of the two walls of [scenario_walls], and a
    game that holds them with 6 slots. *)
Definition scenario_records : list Z :=
  to_bytes 4 0 ++ to_bytes 4 50 ++ [1; 0; 0; 0] ++ to_bytes 8 0 ++
  to_bytes 4 2 ++ to_bytes 4 10 ++ [1; 0; 0; 0] ++ to_bytes 8 0.

Definition scenario_world : World :=
  {| target := example_target 6 2 0 scenario_records; trace := [] |}.

(** * Properties *)

(** ** The outcome monad *)

Lemma bind_Done {A B : Type} (m : run A) (k : A -> run B) (b : B) :
  m ≫= k = Done b -> exists a, m = Done a /\ k a = Done b.
Proof. destruct m as [a|f]; simpl; [eauto | discriminate]. Qed.

Lemma assert_Done {A : Type} (c : bool) (a a' : A) :
  assert c a = Done a' -> c = true /\ a' = a.
Proof. destruct c; simpl; [intros [= <-]; auto | discriminate]. Qed.

Lemma assert_cases {A : Type} (c : bool) (a : A) :
  (c = true /\ assert c a = Done a) \/ (c = false /\ assert c a = Abort AssertFailure).
Proof. destruct c; auto. Qed.

(** ** Byte representation *)

Lemma length_to_bytes (n : nat) (v : Z) : length (to_bytes n v) = n.
Proof. revert v; induction n as [|n IH]; intros v; simpl; [reflexivity | now rewrite IH]. Qed.

Lemma of_to_bytes (n : nat) (v : Z) :
  of_bytes (to_bytes n v) = v mod 256 ^ Z.of_nat n.
Proof.
  revert v; induction n as [|n IH]; intros v.
  - simpl. now rewrite Z.mod_1_r.
  - cbn [to_bytes of_bytes]. rewrite IH, Nat2Z.inj_succ, Z.pow_succ_r by lia.
    rewrite Z.rem_mul_r by lia. lia.
Qed.

Lemma of_to_bytes_DWORD (v : Z) :
  0 <= v <= DWORD_MAX -> of_bytes (to_bytes 4 v) = v.
Proof.
  intros Hv. rewrite of_to_bytes. change (256 ^ Z.of_nat 4) with 4294967296.
  unfold DWORD_MAX in Hv. apply Z.mod_small. lia.
Qed.

(** ** The address space *)

Section AddressSpace.
Import Win32.

Implicit Types (p q : gmap Z Z) (a x : Z) (n : nat) (data : list Z).

Lemma peek_length p a n : (length (peek p a n) <= n)%nat.
Proof.
  revert a; induction n as [|n IH]; intros a; simpl; [lia|].
  destruct (p !! a); simpl; [specialize (IH (a + 1)); lia | lia].
Qed.

Lemma peek_lookup p a n i :
  length (peek p a n) = n -> (i < n)%nat ->
  p !! (a + Z.of_nat i) = peek p a n !! i.
Proof.
  revert a i; induction n as [|n IH]; intros a i Hlen Hi; [lia|].
  simpl in *. destruct (p !! a) as [b|] eqn:Hb; [|discriminate].
  simpl in Hlen. destruct i as [|i].
  - simpl. now rewrite Z.add_0_r.
  - simpl. rewrite <- (IH (a + 1) i) by lia. f_equal. lia.
Qed.

Lemma peek_full p a n :
  (forall i, (i < n)%nat -> is_Some (p !! (a + Z.of_nat i))) ->
  length (peek p a n) = n.
Proof.
  revert a; induction n as [|n IH]; intros a Hm; [reflexivity|].
  simpl. destruct (Hm O ltac:(lia)) as [b Hb].
  rewrite Z.add_0_r in Hb. rewrite Hb. simpl. f_equal.
  apply IH. intros i Hi. specialize (Hm (S i) ltac:(lia)).
  now replace (a + 1 + Z.of_nat i) with (a + Z.of_nat (S i)) by lia.
Qed.

Lemma peek_agree p q a n :
  (forall x, a <= x < a + Z.of_nat n -> p !! x = q !! x) ->
  peek p a n = peek q a n.
Proof.
  revert a; induction n as [|n IH]; intros a Hpq; [reflexivity|].
  simpl. rewrite <- (Hpq a) by lia. destruct (p !! a); [|reflexivity].
  f_equal. apply IH. intros x Hx. apply Hpq. lia.
Qed.

Lemma poke_count data p a :
  0 <= (poke p a data).2 <= Z.of_nat (length data).
Proof.
  revert p a; induction data as [|b data IH]; intros p a; simpl; [lia|].
  destruct (p !! a); simpl; [|lia].
  specialize (IH (<[a:=b]> p) (a + 1)).
  destruct (poke (<[a:=b]> p) (a + 1) data) as [p' c]. simpl in *. lia.
Qed.

Lemma poke_outside data p a x :
  x < a \/ a + Z.of_nat (length data) <= x ->
  (poke p a data).1 !! x = p !! x.
Proof.
  revert p a; induction data as [|b data IH]; intros p a Hx; simpl; [reflexivity|].
  destruct (p !! a) eqn:Ha; simpl; [|reflexivity].
  specialize (IH (<[a:=b]> p) (a + 1)).
  destruct (poke (<[a:=b]> p) (a + 1) data) as [p' c]. simpl in *.
  rewrite IH by lia. apply lookup_insert_ne. lia.
Qed.

Lemma poke_mapped data p a x :
  is_Some ((poke p a data).1 !! x) <-> is_Some (p !! x).
Proof.
  revert p a; induction data as [|b data IH]; intros p a; simpl; [reflexivity|].
  destruct (p !! a) eqn:Ha; simpl; [|reflexivity].
  specialize (IH (<[a:=b]> p) (a + 1)).
  destruct (poke (<[a:=b]> p) (a + 1) data) as [p' c]. simpl in *.
  rewrite IH. destruct (decide (a = x)) as [->|Hne].
  - rewrite lookup_insert_eq, Ha. split; eauto.
  - now rewrite lookup_insert_ne.
Qed.

Lemma poke_complete data p a :
  (poke p a data).2 = Z.of_nat (length data) ->
  peek (poke p a data).1 a (length data) = data.
Proof.
  revert p a; induction data as [|b data IH]; intros p a; simpl; [reflexivity|].
  destruct (p !! a) eqn:Ha; simpl; [|lia].
  specialize (IH (<[a:=b]> p) (a + 1)).
  pose proof (poke_outside data (<[a:=b]> p) (a + 1) a) as Hout.
  destruct (poke (<[a:=b]> p) (a + 1) data) as [p' c]. simpl in *.
  intros Hc. rewrite Hout by lia. rewrite lookup_insert_eq.
  f_equal. apply IH. lia.
Qed.

Lemma poke_full data p a :
  (forall x, a <= x < a + Z.of_nat (length data) -> is_Some (p !! x)) ->
  (poke p a data).2 = Z.of_nat (length data).
Proof.
  revert p a; induction data as [|b data IH]; intros p a Hm; simpl; [reflexivity|].
  destruct (Hm a) as [b0 Hb0]; [simpl; lia|]. rewrite Hb0.
  specialize (IH (<[a:=b]> p) (a + 1)).
  destruct (poke (<[a:=b]> p) (a + 1) data) as [p' c]. simpl in *.
  rewrite IH; [lia|]. intros x Hx.
  destruct (decide (a = x)) as [->|Hne].
  - rewrite lookup_insert_eq. eauto.
  - rewrite lookup_insert_ne by done. apply Hm. lia.
Qed.

End AddressSpace.

(** ** [struct Memory] *)

Section MemoryFacts.
Import Win32 Memory.

Implicit Types (p q : gmap Z Z) (a b x : Z) (data bs : list Z).

Lemma Read_Done p a size bs :
  Read p a size = Done bs ->
  bs = peek p a (Z.to_nat size) /\ Z.of_nat (length bs) = size.
Proof.
  unfold Read, read_checked, ReadProcessMemory. cbn [rd_success rd_count rd_data].
  intros H. apply assert_Done in H as [Hc ->].
  apply andb_true_iff in Hc as [_ Hc]. apply Z.eqb_eq in Hc. auto.
Qed.

Lemma Read_Abort p a size f : Read p a size = Abort f -> f = AssertFailure.
Proof.
  unfold Read, read_checked.
  match goal with
  | |- assert ?c ?t = _ -> _ => destruct (assert_cases c t) as [[_ ->]|[_ ->]]
  end; congruence.
Qed.

Lemma Read_DWORD_Abort p a f : Read_DWORD p a = Abort f -> f = AssertFailure.
Proof.
  unfold Read_DWORD. destruct (Read p a 4) as [bs|f'] eqn:Hr; cbn [mbind run_bind].
  - discriminate.
  - intros [= <-]. exact (Read_Abort _ _ _ _ Hr).
Qed.

Lemma Read_mapped p a size :
  0 <= size ->
  (forall x, a <= x < a + size -> is_Some (p !! x)) ->
  Read p a size = Done (peek p a (Z.to_nat size)).
Proof.
  intros Hs Hm. unfold Read, read_checked, ReadProcessMemory.
  cbn [rd_success rd_count rd_data].
  rewrite peek_full.
  - rewrite Z2Nat.id, Z.eqb_refl by lia. reflexivity.
  - intros i Hi. apply Hm. lia.
Qed.

Lemma Read_agree p q a size :
  (forall x, a <= x < a + size -> p !! x = q !! x) ->
  Read p a size = Read q a size.
Proof.
  intros Hpq. unfold Read, read_checked, ReadProcessMemory.
  cbn [rd_success rd_count rd_data].
  rewrite (peek_agree p q); [reflexivity|].
  intros x Hx. apply Hpq. lia.
Qed.

Lemma Write_Done p a data p' :
  Write p a data = Done p' ->
  p' = (poke p a data).1 /\ (poke p a data).2 = Z.of_nat (length data).
Proof.
  unfold Write, write_checked, WriteProcessMemory.
  destruct (poke p a data) as [p1 c]. cbn [wr_success wr_count wr_target].
  intros H. apply assert_Done in H as [Hc ->].
  apply andb_true_iff in Hc as [_ Hc]. apply Z.eqb_eq in Hc. auto.
Qed.

Lemma Write_mapped p a data :
  (forall x, a <= x < a + Z.of_nat (length data) -> is_Some (p !! x)) ->
  Write p a data = Done (poke p a data).1.
Proof.
  intros Hm. apply poke_full in Hm.
  unfold Write, write_checked, WriteProcessMemory.
  destruct (poke p a data) as [p1 c]. cbn [wr_success wr_count wr_target].
  simpl in Hm. subst c. now rewrite Z.eqb_refl.
Qed.

Lemma Write_Abort p a data f : Write p a data = Abort f -> f = AssertFailure.
Proof.
  unfold Write, write_checked.
  match goal with
  | |- assert ?c ?t = _ -> _ => destruct (assert_cases c t) as [[_ ->]|[_ ->]]
  end; congruence.
Qed.

Lemma Write_outside p a data p' x :
  Write p a data = Done p' ->
  x < a \/ a + Z.of_nat (length data) <= x ->
  p' !! x = p !! x.
Proof. intros [-> _]%Write_Done Hx. now apply poke_outside. Qed.

Lemma Write_keeps_mapping p a data p' x :
  Write p a data = Done p' -> is_Some (p' !! x) <-> is_Some (p !! x).
Proof. intros [-> _]%Write_Done. apply poke_mapped. Qed.

Lemma Write_stored p a data p' :
  Write p a data = Done p' -> peek p' a (length data) = data.
Proof. intros [-> Hc]%Write_Done. now apply poke_complete. Qed.

Lemma Write_was_mapped p a data p' x :
  Write p a data = Done p' ->
  a <= x < a + Z.of_nat (length data) -> is_Some (p !! x).
Proof.
  intros Hw Hx. apply (Write_keeps_mapping _ _ _ _ x Hw).
  pose proof (Write_stored _ _ _ _ Hw) as Hs.
  assert (Hlen : length (peek p' a (length data)) = length data) by now rewrite Hs.
  pose proof (peek_lookup p' a (length data) (Z.to_nat (x - a)) Hlen ltac:(lia)) as Hl.
  replace (a + Z.of_nat (Z.to_nat (x - a))) with x in Hl by lia.
  rewrite Hl. apply lookup_lt_is_Some. lia.
Qed.

Lemma Read_after_Write p a data p' :
  Write p a data = Done p' -> Read p' a (Z.of_nat (length data)) = Done data.
Proof.
  intros Hw. pose proof (Write_stored _ _ _ _ Hw) as Hs.
  unfold Read, read_checked, ReadProcessMemory. cbn [rd_success rd_count rd_data].
  rewrite Nat2Z.id, Hs, Z.eqb_refl. reflexivity.
Qed.

Lemma Read_DWORD_after_Write_DWORD p a v p' :
  0 <= v <= DWORD_MAX ->
  Write_DWORD p a v = Done p' -> Read_DWORD p' a = Done v.
Proof.
  intros Hv Hw. unfold Write_DWORD in Hw. apply Read_after_Write in Hw.
  rewrite length_to_bytes in Hw. unfold Read_DWORD.
  change (Z.of_nat 4) with 4 in Hw. rewrite Hw. cbn [mbind run_bind].
  now rewrite of_to_bytes_DWORD.
Qed.

Lemma Read_DWORD_apart p a data p' b :
  Write p a data = Done p' ->
  b + 4 <= a \/ a + Z.of_nat (length data) <= b ->
  Read_DWORD p' b = Read_DWORD p b.
Proof.
  intros Hw Hd. unfold Read_DWORD. f_equal. apply Read_agree.
  intros x Hx. eapply Write_outside; [eassumption | lia].
Qed.

End MemoryFacts.

(** C7. Every operation of [Memory] either moves exactly the number of bytes
    it was asked for or stops the program on its assertion. Whatever the
    system call answers (success flag, byte count, buffer), the caller gets
    the buffer only when the call succeeded with the full count; on the
    address space of the model, a buffer that is returned holds exactly the
    requested bytes of the target, and a write that returns has stored every
    byte. *)
Theorem C7_transfer_is_complete_or_fatal :
  (forall r requested,
     match Memory.read_checked r requested with
     | Done bs =>
         Win32.rd_success r = true /\ Win32.rd_count r = requested /\ bs = Win32.rd_data r
     | Abort f =>
         f = AssertFailure /\
         (Win32.rd_success r = false \/ Win32.rd_count r <> requested)
     end) /\
  (forall r requested,
     match Memory.write_checked r requested with
     | Done p' =>
         Win32.wr_success r = true /\ Win32.wr_count r = requested /\ p' = Win32.wr_target r
     | Abort f =>
         f = AssertFailure /\
         (Win32.wr_success r = false \/ Win32.wr_count r <> requested)
     end) /\
  (forall (p : gmap Z Z) address size,
     match Memory.Read p address size with
     | Done bs =>
         Z.of_nat (length bs) = size /\
         forall i, (i < length bs)%nat -> p !! (address + Z.of_nat i) = bs !! i
     | Abort f =>
         f = AssertFailure /\
         Win32.rd_count (Win32.ReadProcessMemory p address size) <> size
     end) /\
  (forall (p : gmap Z Z) address len,
     match Memory.ReadBytes p address len with
     | Done bs =>
         Z.of_nat (length bs) = len /\
         forall i, (i < length bs)%nat -> p !! (address + Z.of_nat i) = bs !! i
     | Abort f =>
         f = AssertFailure /\
         Win32.rd_count (Win32.ReadProcessMemory p address len) <> len
     end) /\
  (forall (p : gmap Z Z) address data,
     match Memory.Write p address data with
     | Done p' =>
         Win32.peek p' address (length data) = data /\
         forall x, x < address \/ address + Z.of_nat (length data) <= x -> p' !! x = p !! x
     | Abort f =>
         f = AssertFailure /\
         Win32.wr_count (Win32.WriteProcessMemory p address data) <> Z.of_nat (length data)
     end).
Proof.
  assert (Hread : forall (p : gmap Z Z) address size,
     match Memory.Read p address size with
     | Done bs =>
         Z.of_nat (length bs) = size /\
         forall i, (i < length bs)%nat -> p !! (address + Z.of_nat i) = bs !! i
     | Abort f =>
         f = AssertFailure /\
         Win32.rd_count (Win32.ReadProcessMemory p address size) <> size
     end).
  { intros p address size.
    destruct (Memory.Read p address size) as [bs|f] eqn:Hr.
    - apply Read_Done in Hr as [-> Hlen]. split; [exact Hlen|].
      intros i Hi. apply peek_lookup; [|lia].
      pose proof (peek_length p address (Z.to_nat size)). lia.
    - unfold Memory.Read, Memory.read_checked, Win32.ReadProcessMemory in *.
      cbn [Win32.rd_success Win32.rd_count Win32.rd_data] in *.
      destruct (Z.eqb_spec (Z.of_nat (length (Win32.peek p address (Z.to_nat size)))) size)
        as [Heq|Hne]; simpl in Hr; [discriminate|].
      injection Hr as <-. auto. }
  split; [|split; [|split; [exact Hread|split; [exact Hread|]]]].
  - intros r requested. unfold Memory.read_checked.
    destruct (Win32.rd_success r); simpl; [|auto].
    destruct (Z.eqb_spec (Win32.rd_count r) requested); simpl; auto.
  - intros r requested. unfold Memory.write_checked.
    destruct (Win32.wr_success r); simpl; [|auto].
    destruct (Z.eqb_spec (Win32.wr_count r) requested); simpl; auto.
  - intros p address data.
    destruct (Memory.Write p address data) as [p'|f] eqn:Hw.
    + split; [now apply (Write_stored p)|].
      intros x Hx. now apply (Write_outside p address data).
    + unfold Memory.Write, Memory.write_checked, Win32.WriteProcessMemory in *.
      destruct (Win32.poke p address data) as [p1 c].
      cbn [Win32.wr_success Win32.wr_count Win32.wr_target] in *.
      destruct (Z.eqb_spec c (Z.of_nat (length data))) as [Heq|Hne];
        simpl in Hw; [discriminate|].
      injection Hw as <-. auto.
Qed.

Lemma C7_witness :
  match Memory.Read (example_target 6 0 0 []) (0x10000 + Offsets.MouseDownLeft) 4 with
  | Done bs =>
      Z.of_nat (length bs) = 4 /\
      forall i, (i < length bs)%nat ->
        example_target 6 0 0 [] !! (0x10000 + Offsets.MouseDownLeft + Z.of_nat i) = bs !! i
  | Abort f =>
      f = AssertFailure /\
      Win32.rd_count
        (Win32.ReadProcessMemory (example_target 6 0 0 [])
           (0x10000 + Offsets.MouseDownLeft) 4) <> 4
  end.
Proof.
  exact (proj1 (proj2 (proj2 C7_transfer_is_complete_or_fatal))
           (example_target 6 0 0 []) (0x10000 + Offsets.MouseDownLeft) 4).
Defined.

(** ** The slot selection *)

Lemma min_macro_min (a b : Z) : min_macro a b = Z.min a b.
Proof. unfold min_macro. destruct (Z.ltb_spec a b); lia. Qed.

Lemma nearest_le_max (n : Z) (ws : list Wall) (s : Z) : nearest n ws s <= DWORD_MAX.
Proof.
  induction ws as [|a ws IH]; simpl; [lia|].
  destruct (live a && (slot a mod n =? s)); lia.
Qed.

Lemma visit_wall_ok (n : Z) (v : list Z) (a : Wall) :
  1 <= n -> length v = Z.to_nat n ->
  exists v', visit_wall n v a = Done v' /\ length v' = length v /\
    forall (j : nat) x, v !! j = Some x ->
      v' !! j = Some (if live a && (slot a mod n =? Z.of_nat j)
                      then Z.min (distance a) x else x).
Proof.
  intros Hn Hlen. unfold visit_wall. fold (live a).
  destruct (live a) eqn:Hlive; cbn [andb].
  - unfold umod. destruct (Z.eqb_spec n 0) as [?|_]; [lia|]. cbn [mbind run_bind].
    pose proof (Z.mod_pos_bound (slot a) n ltac:(lia)) as Hs.
    destruct (lookup_lt_is_Some_2 v (Z.to_nat (slot a mod n)) ltac:(lia)) as [cur Hcur].
    rewrite Hcur. eexists; split; [reflexivity|]. split; [apply length_insert|].
    intros j x Hj. destruct (Z.eqb_spec (slot a mod n) (Z.of_nat j)) as [He|Hne].
    + replace (Z.to_nat (slot a mod n)) with j in * by lia.
      rewrite list_lookup_insert_eq by (apply lookup_lt_Some in Hj; lia).
      rewrite min_macro_min. f_equal. assert (cur = x) by congruence. lia.
    + rewrite list_lookup_insert_ne by lia. exact Hj.
  - eexists; split; [reflexivity|]. split; [reflexivity|]. auto.
Qed.

Lemma for_each_wall_ok (n : Z) (ws : list Wall) (v : list Z) :
  1 <= n -> length v = Z.to_nat n ->
  (forall (j : nat) x, v !! j = Some x -> x <= DWORD_MAX) ->
  exists v', for_each_wall n ws v = Done v' /\ length v' = length v /\
    forall (j : nat) x, v !! j = Some x ->
      v' !! j = Some (Z.min x (nearest n ws (Z.of_nat j))).
Proof.
  intros Hn. revert v. induction ws as [|a ws IH]; intros v Hlen Hmax.
  - exists v. split; [reflexivity|]. split; [reflexivity|].
    intros j x Hj. simpl. rewrite Hj. f_equal. specialize (Hmax j x Hj). lia.
  - destruct (visit_wall_ok n v a Hn Hlen) as (v1 & Hv1 & Hlen1 & Hget1).
    destruct (IH v1) as (v' & Hv' & Hlen' & Hget'); [congruence| |].
    { intros j x Hj.
      destruct (lookup_lt_is_Some_2 v j) as [x0 Hx0];
        [apply lookup_lt_Some in Hj; lia|].
      rewrite (Hget1 j x0 Hx0) in Hj. injection Hj as <-.
      specialize (Hmax j x0 Hx0).
      destruct (live a && (slot a mod n =? Z.of_nat j)); lia. }
    exists v'. split; [cbn [for_each_wall]; rewrite Hv1; exact Hv'|].
    split; [congruence|].
    intros j x Hj. rewrite (Hget' j _ (Hget1 j x Hj)). f_equal. cbn [nearest].
    destruct (live a && (slot a mod n =? Z.of_nat j)); lia.
Qed.

Lemma max_element_scan_spec (rest : list Z) (position largest lv : Z) :
  largest < position ->
  let r := max_element_scan rest position largest lv in
  (r = largest /\ forall (k : nat) y, rest !! k = Some y -> y <= lv) \/
  (exists (i : nat) x,
      r = position + Z.of_nat i /\ rest !! i = Some x /\ lv < x /\
      (forall (k : nat) y, (k < i)%nat -> rest !! k = Some y -> y < x) /\
      (forall (k : nat) y, rest !! k = Some y -> y <= x)).
Proof.
  revert position largest lv.
  induction rest as [|x0 tail IH]; intros position largest lv Hlt; cbn zeta.
  - left. split; [reflexivity|]. intros k y Hk. discriminate.
  - cbn [max_element_scan]. destruct (Z.ltb_spec lv x0) as [Hgt|Hle].
    + specialize (IH (position + 1) position x0 ltac:(lia)). cbn zeta in IH.
      right. destruct IH as [[Hr Hall]|(i & x & Hr & Hi & Hx & Hbefore & Hall)].
      * exists O, x0. split; [lia|]. split; [reflexivity|]. split; [lia|].
        split; [intros; lia|].
        intros [|k] y Hk; [injection Hk as <-; lia | exact (Hall k y Hk)].
      * exists (S i), x. split; [lia|]. split; [exact Hi|]. split; [lia|].
        split.
        -- intros [|k] y Hk Hy; [injection Hy as <-; lia|].
           apply (Hbefore k y); [lia | exact Hy].
        -- intros [|k] y Hk; [injection Hk as <-; lia | exact (Hall k y Hk)].
    + specialize (IH (position + 1) largest lv ltac:(lia)). cbn zeta in IH.
      destruct IH as [[Hr Hall]|(i & x & Hr & Hi & Hx & Hbefore & Hall)].
      * left. split; [exact Hr|].
        intros [|k] y Hk; [injection Hk as <-; lia | exact (Hall k y Hk)].
      * right. exists (S i), x. split; [lia|]. split; [exact Hi|]. split; [lia|].
        split.
        -- intros [|k] y Hk Hy; [injection Hy as <-; lia|].
           apply (Hbefore k y); [lia | exact Hy].
        -- intros [|k] y Hk; [injection Hk as <-; lia | exact (Hall k y Hk)].
Qed.

(** [std::max_element] on a non-empty range: the first position that holds
    the greatest value. *)
Lemma max_element_spec (v : list Z) :
  v <> [] ->
  exists rv,
    0 <= max_element v < Z.of_nat (length v) /\
    v !! Z.to_nat (max_element v) = Some rv /\
    (forall (k : nat) y, v !! k = Some y -> y <= rv) /\
    (forall (k : nat) y, Z.of_nat k < max_element v -> v !! k = Some y -> y < rv).
Proof.
  destruct v as [|x rest]; [congruence|]. intros _. cbn [max_element].
  pose proof (max_element_scan_spec rest 1 0 x ltac:(lia)) as H. cbn zeta in H.
  destruct H as [[Hr Hall]|(i & y & Hr & Hi & Hy & Hbefore & Hall)].
  - rewrite Hr. exists x. cbn [length]. split; [lia|]. split; [reflexivity|].
    split; [|intros; lia].
    intros [|k] y Hk; [injection Hk as <-; lia | exact (Hall k y Hk)].
  - rewrite Hr. exists y. pose proof (lookup_lt_Some _ _ _ Hi). cbn [length].
    split; [lia|]. split.
    { replace (Z.to_nat (1 + Z.of_nat i)) with (S i) by lia. exact Hi. }
    split.
    + intros [|k] z Hk; [injection Hk as <-; lia | exact (Hall k z Hk)].
    + intros [|k] z Hlt Hk; [injection Hk as <-; lia|].
      apply (Hbefore k z); [lia | exact Hk].
Qed.

Lemma select_slot_spec (n : Z) (ws : list Wall) :
  1 <= n <= DWORD_MAX ->
  exists filled r,
    for_each_wall n ws (replicate (Z.to_nat n) DWORD_MAX) = Done filled /\
    length filled = Z.to_nat n /\
    (forall s, 0 <= s < n -> filled !! Z.to_nat s = Some (nearest n ws s)) /\
    select_slot n ws = Done r /\
    0 <= r < n /\
    (forall s, 0 <= s < n -> nearest n ws s <= nearest n ws r) /\
    (forall s, 0 <= s < r -> nearest n ws s < nearest n ws r).
Proof.
  intros Hn.
  destruct (for_each_wall_ok n ws (replicate (Z.to_nat n) DWORD_MAX))
    as (filled & Hrun & Hlen & Hget).
  { lia. }
  { apply length_replicate. }
  { intros j x [-> _]%lookup_replicate. lia. }
  rewrite length_replicate in Hlen.
  assert (Hfilled : forall s, 0 <= s < n ->
            filled !! Z.to_nat s = Some (nearest n ws s)).
  { intros s Hs. rewrite (Hget (Z.to_nat s) DWORD_MAX).
    - rewrite Z2Nat.id by lia. f_equal. pose proof (nearest_le_max n ws s). lia.
    - apply lookup_replicate. split; [reflexivity | lia]. }
  destruct (max_element_spec filled) as (rv & Hr & Hrv & Hall & Hbefore).
  { intros ->. simpl in Hlen. lia. }
  exists filled, (max_element filled).
  assert (Hrange : 0 <= max_element filled < n) by lia.
  rewrite (Hfilled _ Hrange) in Hrv. injection Hrv as <-.
  split; [exact Hrun|]. split; [exact Hlen|]. split; [exact Hfilled|].
  split.
  { unfold select_slot. rewrite Hrun. cbn [mbind run_bind]. f_equal.
    unfold wrap32. apply Z.mod_small. unfold DWORD_MAX in *. lia. }
  split; [exact Hrange|]. split.
  - intros s Hs. apply (Hall (Z.to_nat s)). now apply Hfilled.
  - intros s Hs. apply (Hbefore (Z.to_nat s)); [lia|]. apply Hfilled. lia.
Qed.

Lemma SlotSelector_nonempty (n : Z) (ws : list Wall) :
  ws <> [] -> SlotSelector n ws = (r ← select_slot n ws; Done (Some r)).
Proof. destruct ws; [congruence | reflexivity]. Qed.

(** C1. With at least one slot and a non-empty wall list, the selection
    fills an array of per-slot minima that starts at the greatest [DWORD] and
    is lowered only by the enabled walls of positive distance, each at its
    slot index modulo the slot count; it answers the slot whose minimum is
    the greatest, the lowest such slot on a tie. On the scenario with 6
    slots and walls (0, 50) and (2, 10), the minima are
    [50, MAX, 10, MAX, MAX, MAX] and the answer is slot 1. *)
Theorem C1_selection_takes_farthest_nearest_wall :
  (forall (n : Z) (ws : list Wall),
     1 <= n <= DWORD_MAX -> ws <> [] ->
     exists minDistances r,
       for_each_wall n ws (replicate (Z.to_nat n) DWORD_MAX) = Done minDistances /\
       length minDistances = Z.to_nat n /\
       (forall s, 0 <= s < n -> minDistances !! Z.to_nat s = Some (nearest n ws s)) /\
       SlotSelector n ws = Done (Some r) /\
       0 <= r < n /\
       (forall s, 0 <= s < n -> nearest n ws s <= nearest n ws r) /\
       (forall s, 0 <= s < r -> nearest n ws s < nearest n ws r)) /\
  for_each_wall 6 scenario_walls (replicate 6 DWORD_MAX)
    = Done [50; DWORD_MAX; 10; DWORD_MAX; DWORD_MAX; DWORD_MAX] /\
  SlotSelector 6 scenario_walls = Done (Some 1).
Proof.
  split; [|split; reflexivity].
  intros n ws Hn Hws.
  destruct (select_slot_spec n ws Hn)
    as (filled & r & Hrun & Hlen & Hfilled & Hsel & Hr & Hmax & Hfirst).
  exists filled, r. rewrite (SlotSelector_nonempty n ws Hws), Hsel.
  repeat split; auto; lia.
Qed.

Lemma C1_witness :
  exists r, SlotSelector 6 scenario_walls = Done (Some r) /\
            nearest 6 scenario_walls 0 < nearest 6 scenario_walls r.
Proof.
  destruct (proj1 C1_selection_takes_farthest_nearest_wall 6 scenario_walls)
    as (filled & r & _ & _ & _ & Hsel & Hr & Hmax & Hfirst).
  - unfold DWORD_MAX; lia.
  - discriminate.
  - exists r. split; [exact Hsel|].
    assert (r <> 0).
    { intros ->. specialize (Hmax 1 ltac:(lia)). vm_compute in Hmax. apply Hmax.
      reflexivity. }
    apply Hfirst. lia.
Defined.

(** C2. With at least one slot, the selection answers a slot index below the
    slot count when the wall list is not empty, and answers that there is
    no decision when the list is empty. *)
Theorem C2_selection_in_range_or_no_decision (n : Z) (ws : list Wall) :
  1 <= n <= DWORD_MAX ->
  (ws <> [] -> exists r, SlotSelector n ws = Done (Some r) /\ 0 <= r < n) /\
  (ws = [] -> SlotSelector n ws = Done None).
Proof.
  intros Hn. split.
  - intros Hws.
    destruct (select_slot_spec n ws Hn) as (_ & r & _ & _ & _ & Hsel & Hr & _).
    exists r. rewrite (SlotSelector_nonempty n ws Hws), Hsel. auto.
  - intros ->. reflexivity.
Qed.

Lemma C2_witness :
  (exists r, SlotSelector 4 [wall 5 1 1] = Done (Some r) /\ 0 <= r < 4) /\
  SlotSelector 4 [] = Done None.
Proof.
  split.
  - apply (C2_selection_in_range_or_no_decision 4 [wall 5 1 1]);
      [unfold DWORD_MAX; lia | discriminate].
  - apply (C2_selection_in_range_or_no_decision 4 []);
      [unfold DWORD_MAX; lia | reflexivity].
Defined.

Lemma nearest_no_live_wall (n : Z) (ws : list Wall) (s : Z) :
  Forall (fun a => enabled a = 0 \/ distance a = 0) ws ->
  nearest n ws s = DWORD_MAX.
Proof.
  induction 1 as [|a ws Ha _ IH]; [reflexivity|]. cbn [nearest].
  replace (live a) with false; [exact IH|].
  unfold live. destruct Ha as [-> | ->]; [|reflexivity].
  now rewrite andb_false_r.
Qed.

(** C3. With at least one slot and a non-empty wall list in which every
    wall is disabled or at distance zero, the selection answers slot 0, not
    the absence of a decision. *)
Theorem C3_no_live_wall_selects_slot_0 (n : Z) (ws : list Wall) :
  1 <= n <= DWORD_MAX ->
  ws <> [] ->
  Forall (fun a => enabled a = 0 \/ distance a = 0) ws ->
  SlotSelector n ws = Done (Some 0).
Proof.
  intros Hn Hws Hdead.
  destruct (select_slot_spec n ws Hn) as (_ & r & _ & _ & _ & Hsel & Hr & _ & Hfirst).
  rewrite (SlotSelector_nonempty n ws Hws), Hsel. cbn [mbind run_bind].
  do 2 f_equal. destruct (Z.eq_dec r 0) as [|Hne]; [assumption|].
  specialize (Hfirst 0 ltac:(lia)).
  rewrite !(nearest_no_live_wall n ws _ Hdead) in Hfirst. lia.
Qed.

Lemma C3_witness : SlotSelector 5 [wall 3 0 1; wall 2 7 0] = Done (Some 0).
Proof.
  apply (C3_no_live_wall_selects_slot_0 5 [wall 3 0 1; wall 2 7 0]).
  - unfold DWORD_MAX; lia.
  - discriminate.
  - constructor; [right; reflexivity|].
    constructor; [left; reflexivity|]. constructor.
Defined.

(** ** [struct SuperHexagonApi] *)

Section ApiFacts.
Import Memory Api.

Implicit Types (api : SuperHexagonApi) (p : gmap Z Z).

(** Two fields whose offsets differ by at least [w] stay [w] bytes apart,
    also when the sum with the base address wraps around. *)
Lemma field_apart api (o1 o2 w : Z) :
  0 < w -> o1 + w <= o2 -> o2 + w <= o1 + 4294967296 ->
  field api o1 + w <= field api o2 \/ field api o2 + w <= field api o1.
Proof.
  intros Hw H12 H21. unfold field, wrap32.
  pose proof (Z.mod_pos_bound (appBase api + o1) 4294967296 ltac:(lia)).
  pose proof (Z.mod_pos_bound (appBase api + o2) 4294967296 ltac:(lia)).
  rewrite (Z.mod_eq (appBase api + o1) 4294967296) in * by lia.
  rewrite (Z.mod_eq (appBase api + o2) 4294967296) in * by lia.
  lia.
Qed.

Lemma slot_centre_range (n s : Z) :
  1 <= n -> 0 <= 360 / n * (s mod n) + 180 / n <= 540.
Proof.
  intros Hn.
  pose proof (Z.mod_pos_bound s n ltac:(lia)) as Hs.
  pose proof (Z.div_pos 360 n ltac:(lia) ltac:(lia)) as Hq0.
  pose proof (Z.mul_div_le 360 n ltac:(lia)) as Hq.
  pose proof (Z.div_pos 180 n ltac:(lia) ltac:(lia)) as Hh0.
  assert (180 / n <= 180) by (apply Z.div_le_upper_bound; lia).
  nia.
Qed.

Lemma SetPlayerSlot_writes api p (s n : Z) :
  GetNumSlots api p = Done n -> 1 <= n ->
  SetPlayerSlot api p s =
    (p1 ← Write_DWORD p (field api Offsets.PlayerAngle)
            (360 / n * (s mod n) + 180 / n);
     Write_DWORD p1 (field api Offsets.PlayerAngle2)
            (360 / n * (s mod n) + 180 / n)).
Proof.
  intros Hn Hpos. unfold SetPlayerSlot. rewrite Hn. cbn [mbind run_bind].
  unfold udiv, umod. destruct (Z.eqb_spec n 0) as [?|_]; [lia|].
  cbn [mbind run_bind].
  assert (wrap32 (wrap32 (360 / n * (s mod n)) + 180 / n)
          = 360 / n * (s mod n) + 180 / n) as ->; [|reflexivity].
  pose proof (slot_centre_range n s Hpos).
  pose proof (Z.div_pos 180 n ltac:(lia) ltac:(lia)).
  pose proof (Z.mod_pos_bound s n ltac:(lia)).
  pose proof (Z.div_pos 360 n ltac:(lia) ltac:(lia)).
  unfold wrap32. rewrite (Z.mod_small (360 / n * (s mod n))) by nia.
  apply Z.mod_small. lia.
Qed.

Lemma SetPlayerSlot_Done api p (s n : Z) p' :
  GetNumSlots api p = Done n -> 1 <= n ->
  SetPlayerSlot api p s = Done p' ->
  GetPlayerAngle api p' = Done (360 / n * (s mod n) + 180 / n) /\
  Read_DWORD p' (field api Offsets.PlayerAngle2)
    = Done (360 / n * (s mod n) + 180 / n) /\
  GetNumSlots api p' = Done n /\
  (forall x,
      x < field api Offsets.PlayerAngle \/ field api Offsets.PlayerAngle + 4 <= x ->
      x < field api Offsets.PlayerAngle2 \/ field api Offsets.PlayerAngle2 + 4 <= x ->
      p' !! x = p !! x).
Proof.
  intros Hn Hpos Hset. rewrite (SetPlayerSlot_writes api p s n Hn Hpos) in Hset.
  apply bind_Done in Hset as (p1 & Hw1 & Hw2).
  pose proof (slot_centre_range n s Hpos) as Hrange.
  assert (Hv : 0 <= 360 / n * (s mod n) + 180 / n <= DWORD_MAX)
    by (unfold DWORD_MAX; lia).
  pose proof (field_apart api Offsets.PlayerAngle2 Offsets.PlayerAngle 4
                ltac:(lia) ltac:(unfold Offsets.PlayerAngle2, Offsets.PlayerAngle; lia)
                ltac:(unfold Offsets.PlayerAngle2, Offsets.PlayerAngle; lia)) as Hangles.
  pose proof (field_apart api Offsets.NumSlots Offsets.PlayerAngle 4
                ltac:(lia) ltac:(unfold Offsets.NumSlots, Offsets.PlayerAngle; lia)
                ltac:(unfold Offsets.NumSlots, Offsets.PlayerAngle; lia)) as Hslots1.
  pose proof (field_apart api Offsets.NumSlots Offsets.PlayerAngle2 4
                ltac:(lia) ltac:(unfold Offsets.NumSlots, Offsets.PlayerAngle2; lia)
                ltac:(unfold Offsets.NumSlots, Offsets.PlayerAngle2; lia)) as Hslots2.
  unfold Write_DWORD in Hw1, Hw2.
  split; [|split; [|split]].
  - unfold GetPlayerAngle.
    rewrite (Read_DWORD_apart p1 _ _ p' _ Hw2) by (rewrite length_to_bytes; lia).
    now apply (Read_DWORD_after_Write_DWORD p).
  - now apply (Read_DWORD_after_Write_DWORD p1).
  - unfold GetNumSlots in *.
    rewrite (Read_DWORD_apart p1 _ _ p' _ Hw2) by (rewrite length_to_bytes; lia).
    rewrite (Read_DWORD_apart p _ _ p1 _ Hw1) by (rewrite length_to_bytes; lia).
    exact Hn.
  - intros x Hx1 Hx2.
    rewrite (Write_outside p1 _ _ p' x Hw2) by (rewrite length_to_bytes; lia).
    apply (Write_outside p _ _ p1 x Hw1). rewrite length_to_bytes. lia.
Qed.

Lemma SetPlayerSlot_succeeds api p (s n : Z) :
  GetNumSlots api p = Done n -> 1 <= n ->
  accessible p (field api Offsets.PlayerAngle) 4 ->
  accessible p (field api Offsets.PlayerAngle2) 4 ->
  exists p', SetPlayerSlot api p s = Done p'.
Proof.
  intros Hn Hpos Ha1 Ha2. rewrite (SetPlayerSlot_writes api p s n Hn Hpos).
  unfold Write_DWORD. rewrite Write_mapped.
  2:{ intros x Hx. apply Ha1. rewrite length_to_bytes in Hx. lia. }
  cbn [mbind run_bind]. rewrite Write_mapped; [eauto|].
  intros x Hx. apply poke_mapped. apply Ha2. rewrite length_to_bytes in Hx. lia.
Qed.

Lemma SetPlayerSlot_Abort api p (s n : Z) f :
  GetNumSlots api p = Done n -> 1 <= n ->
  SetPlayerSlot api p s = Abort f -> f = AssertFailure.
Proof.
  intros Hn Hpos. rewrite (SetPlayerSlot_writes api p s n Hn Hpos).
  unfold Write_DWORD.
  destruct (Write p (field api Offsets.PlayerAngle) _) as [p1|f1] eqn:Hw1;
    cbn [mbind run_bind].
  - apply Write_Abort.
  - intros [= <-]. exact (Write_Abort _ _ _ _ Hw1).
Qed.

Lemma GetPlayerSlot_float api p (a n : Z) :
  GetPlayerAngle api p = Done a -> GetNumSlots api p = Done n ->
  GetPlayerSlot api p = float_slot a n.
Proof. intros Ha Hn. unfold GetPlayerSlot. rewrite Ha. cbn [mbind run_bind]. now rewrite Hn. Qed.

End ApiFacts.

Lemma forallb_seqZ (f : Z -> bool) (lo len : Z) :
  forallb f (seqZ lo len) = true -> forall x, lo <= x < lo + len -> f x = true.
Proof.
  intros Hall x Hx. rewrite forallb_forall in Hall. apply Hall.
  apply list_elem_of_In, elem_of_seqZ. lia.
Qed.

Lemma accessibleb_true (p : gmap Z Z) (address size : Z) :
  accessibleb p address size = true -> accessible p address size.
Proof.
  intros Hall x Hx. unfold accessibleb in Hall.
  pose proof (forallb_seqZ _ _ _ Hall x Hx) as Hb. cbn beta in Hb.
  destruct (p !! x); [eauto | discriminate].
Qed.

(** C4. With a slot count [n] of at least 1, [SetPlayerSlot(slot)] computes
    [360 / n * (slot mod n) + 180 / n] (integer divisions) and stores that
    value in both player-angle fields, and in nothing else; it returns
    whenever both fields can be written, and otherwise stops on the
    assertion of the failed write. *)
Theorem C4_SetPlayerSlot_writes_slot_centre
    (api : SuperHexagonApi) (p : gmap Z Z) (s n : Z) :
  Api.GetNumSlots api p = Done n ->
  1 <= n ->
  (accessible p (Api.field api Offsets.PlayerAngle) 4 ->
   accessible p (Api.field api Offsets.PlayerAngle2) 4 ->
   exists p', Api.SetPlayerSlot api p s = Done p') /\
  match Api.SetPlayerSlot api p s with
  | Done p' =>
      Memory.Read_DWORD p' (Api.field api Offsets.PlayerAngle)
        = Done (360 / n * (s mod n) + 180 / n) /\
      Memory.Read_DWORD p' (Api.field api Offsets.PlayerAngle2)
        = Done (360 / n * (s mod n) + 180 / n) /\
      (forall x,
          x < Api.field api Offsets.PlayerAngle \/
            Api.field api Offsets.PlayerAngle + 4 <= x ->
          x < Api.field api Offsets.PlayerAngle2 \/
            Api.field api Offsets.PlayerAngle2 + 4 <= x ->
          p' !! x = p !! x)
  | Abort f => f = AssertFailure
  end.
Proof.
  intros Hn Hpos. split.
  - intros Ha1 Ha2. now apply (SetPlayerSlot_succeeds api p s n).
  - destruct (Api.SetPlayerSlot api p s) as [p'|f] eqn:Hset.
    + destruct (SetPlayerSlot_Done api p s n p' Hn Hpos Hset) as (H1 & H2 & _ & H3).
      auto.
    + exact (SetPlayerSlot_Abort api p s n f Hn Hpos Hset).
Qed.

Lemma C4_witness :
  match Api.SetPlayerSlot example_api (example_target 6 0 0 []) 4 with
  | Done p' =>
      Memory.Read_DWORD p' (Api.field example_api Offsets.PlayerAngle) = Done 270 /\
      Memory.Read_DWORD p' (Api.field example_api Offsets.PlayerAngle2) = Done 270 /\
      (forall x,
          x < Api.field example_api Offsets.PlayerAngle \/
            Api.field example_api Offsets.PlayerAngle + 4 <= x ->
          x < Api.field example_api Offsets.PlayerAngle2 \/
            Api.field example_api Offsets.PlayerAngle2 + 4 <= x ->
          p' !! x = example_target 6 0 0 [] !! x)
  | Abort f => f = AssertFailure
  end.
Proof.
  apply (C4_SetPlayerSlot_writes_slot_centre example_api (example_target 6 0 0 []) 4 6).
  - vm_compute. reflexivity.
  - lia.
Defined.

(** The round trips of slot counts 1 to 18, by evaluation. *)
Lemma float_slot_of_centre (n k : Z) :
  1 <= n <= 18 -> 0 <= k < n ->
  float_slot (360 / n * (k mod n) + 180 / n) n = Done k.
Proof.
  intros Hn Hk.
  assert (Hall : forallb (fun n =>
            forallb (fun k =>
              match float_slot (360 / n * (k mod n) + 180 / n) n with
              | Done r => r =? k
              | Abort _ => false
              end) (seqZ 0 n)) (seqZ 1 18) = true) by (vm_compute; reflexivity).
  pose proof (forallb_seqZ _ _ _ Hall n ltac:(lia)) as Hrow. cbn beta in Hrow.
  pose proof (forallb_seqZ _ _ _ Hrow k ltac:(lia)) as Hcell. cbn beta in Hcell.
  destruct (float_slot _ n) as [r|f]; [|discriminate].
  apply Z.eqb_eq in Hcell. now subst.
Qed.

(** C5 fails as stated: with 19 slots, slot 10 is sent to angle 189, which
    [GetPlayerSlot] reads back as slot 9. With more than 360 slots every
    slot is sent to angle 0: whole degrees cannot tell that many slots
    apart. *)
Lemma C5_counterexample :
  Api.GetNumSlots example_api (example_target 19 0 0 []) = Done 19 /\
  0 <= 10 < 19 /\
  (p' ← Api.SetPlayerSlot example_api (example_target 19 0 0 []) 10;
   Api.GetPlayerAngle example_api p') = Done 189 /\
  (p' ← Api.SetPlayerSlot example_api (example_target 19 0 0 []) 10;
   Api.GetPlayerSlot example_api p') = Done 9 /\
  (p' ← Api.SetPlayerSlot example_api (example_target 361 0 7 []) 1;
   Api.GetPlayerSlot example_api p') = Done 0.
Proof.
  split; [vm_compute; reflexivity|]. split; [lia|].
  repeat split; vm_compute; reflexivity.
Qed.

(** C5, amended. For every slot count from 1 to 18 and every slot [k] below
    it, [SetPlayerSlot(k)] returns when both angle fields can be written,
    and [GetPlayerSlot()] afterwards returns [k]. *)
Theorem C5_slot_round_trip_up_to_18
    (api : SuperHexagonApi) (p : gmap Z Z) (n k : Z) :
  Api.GetNumSlots api p = Done n ->
  1 <= n <= 18 ->
  0 <= k < n ->
  accessible p (Api.field api Offsets.PlayerAngle) 4 ->
  accessible p (Api.field api Offsets.PlayerAngle2) 4 ->
  exists p', Api.SetPlayerSlot api p k = Done p' /\
             Api.GetNumSlots api p' = Done n /\
             Api.GetPlayerSlot api p' = Done k.
Proof.
  intros Hn Hrange Hk Ha1 Ha2.
  destruct (SetPlayerSlot_succeeds api p k n Hn ltac:(lia) Ha1 Ha2) as [p' Hset].
  destruct (SetPlayerSlot_Done api p k n p' Hn ltac:(lia) Hset)
    as (Hangle & _ & Hn' & _).
  exists p'. split; [exact Hset|]. split; [exact Hn'|].
  rewrite (GetPlayerSlot_float api p' _ n Hangle Hn').
  now apply float_slot_of_centre.
Qed.

Lemma C5_witness :
  exists p', Api.SetPlayerSlot example_api (example_target 6 0 0 []) 4 = Done p' /\
             Api.GetNumSlots example_api p' = Done 6 /\
             Api.GetPlayerSlot example_api p' = Done 4.
Proof.
  apply (C5_slot_round_trip_up_to_18 example_api (example_target 6 0 0 []) 6 4).
  - vm_compute. reflexivity.
  - lia.
  - lia.
  - apply accessibleb_true. vm_compute. reflexivity.
  - apply accessibleb_true. vm_compute. reflexivity.
Defined.

(** The exact quotient on the angles of a turn and up to 107 slots, by
    evaluation. *)
Lemma float_slot_exact (a n : Z) :
  0 <= a <= 360 -> 1 <= n <= 107 -> float_slot a n = Done (a * n / 360).
Proof.
  intros Ha Hn.
  assert (Hall : forallb (fun n =>
            forallb (fun a =>
              match float_slot a n with
              | Done r => r =? a * n / 360
              | Abort _ => false
              end) (seqZ 0 361)) (seqZ 1 107) = true) by (vm_compute; reflexivity).
  pose proof (forallb_seqZ _ _ _ Hall n ltac:(lia)) as Hrow. cbn beta in Hrow.
  pose proof (forallb_seqZ _ _ _ Hrow a ltac:(lia)) as Hcell. cbn beta in Hcell.
  destruct (float_slot a n) as [r|f]; [|discriminate].
  apply Z.eqb_eq in Hcell. now subst.
Qed.

(** C6 fails as stated: a [float] has 24 significant bits, so the stored
    angle 16777217 becomes 16777216 when it is converted; with 360 slots the
    exact quotient is 16777217 and the function returns 16777216. *)
Lemma C6_counterexample :
  Api.GetPlayerAngle example_api (example_target 360 0 16777217 []) = Done 16777217 /\
  Api.GetNumSlots example_api (example_target 360 0 16777217 []) = Done 360 /\
  Api.GetPlayerSlot example_api (example_target 360 0 16777217 []) = Done 16777216 /\
  Api.GetPlayerSlot example_api (example_target 360 0 16777217 [])
    <> Done (16777217 * 360 / 360).
Proof.
  repeat split; try (vm_compute; reflexivity).
  vm_compute. discriminate.
Qed.

(** The bound of 107 slots is the best one for the angles of a turn. *)
Example float_slot_108 : float_slot 210 108 = Done 62 /\ 210 * 108 / 360 = 63.
Proof. split; vm_compute; reflexivity. Qed.

(** Beyond the range of a [DWORD] the conversion has no check and the
    function still returns: with the greatest stored angle and 360 slots the
    product is [2^32], of which the low 32 bits are 0. *)
Example float_slot_out_of_range :
  float_slot 4294967295 360 = Done 0 /\ 4294967295 * 360 / 360 = 4294967295.
Proof. split; vm_compute; reflexivity. Qed.

(** C6, amended. For every stored player angle from 0 to 360 and every slot
    count from 1 to 107, [GetPlayerSlot()] returns exactly the floor of
    [angle * slotCount / 360], the division and the product each being
    rounded to single precision. *)
Theorem C6_GetPlayerSlot_exact_on_a_turn
    (api : SuperHexagonApi) (p : gmap Z Z) (a n : Z) :
  Api.GetPlayerAngle api p = Done a ->
  Api.GetNumSlots api p = Done n ->
  0 <= a <= 360 ->
  1 <= n <= 107 ->
  Api.GetPlayerSlot api p = Done (a * n / 360).
Proof.
  intros Ha Hn Hturn Hcount. rewrite (GetPlayerSlot_float api p a n Ha Hn).
  now apply float_slot_exact.
Qed.

Lemma C6_witness :
  Api.GetPlayerSlot example_api (example_target 6 0 270 []) = Done (270 * 6 / 360).
Proof.
  apply (C6_GetPlayerSlot_exact_on_a_turn example_api (example_target 6 0 270 []) 270 6).
  - vm_compute. reflexivity.
  - vm_compute. reflexivity.
  - lia.
  - lia.
Defined.

(** ** One turn of the loop *)

(** C8. On a turn whose freshly read wall list is empty, nothing is written
    to the target (its memory, hence the player angle fields, the
    input-state bytes and the world angle, is the same afterwards) and no
    status line is printed: the turn only sleeps and clears the screen. *)
Theorem C8_empty_frame_leaves_target_untouched
    (api api' : SuperHexagonApi) (w : World) :
  Api.UpdateWalls api (target w) = Done api' ->
  walls api' = [] ->
  iteration api w
    = Done (api', {| target := target w; trace := trace w ++ [Sleep 10; ClearScreen] |}).
Proof.
  intros Hupdate Hempty. unfold iteration. rewrite Hupdate. cbn [mbind run_bind].
  rewrite Hempty. reflexivity.
Qed.

Lemma C8_witness :
  iteration example_api {| target := example_target 6 0 270 []; trace := [] |}
    = Done (example_api,
            {| target := example_target 6 0 270 []; trace := [Sleep 10; ClearScreen] |}).
Proof.
  apply (C8_empty_frame_leaves_target_untouched example_api example_api
           {| target := example_target 6 0 270 []; trace := [] |}).
  - vm_compute. reflexivity.
  - reflexivity.
Defined.

(** A turn on the first scenario of the specification: 6 slots, walls at
    (0, 50) and (2, 10). The bot prints slot 1 and stores its centre, 90. *)
Example iteration_on_scenario :
  ('(_, w') ← iteration example_api
       {| target := example_target 6 2 0
                      (to_bytes 4 0 ++ to_bytes 4 50 ++ [1; 0; 0; 0] ++ to_bytes 8 0 ++
                       to_bytes 4 2 ++ to_bytes 4 10 ++ [1; 0; 0; 0] ++ to_bytes 8 0);
          trace := [] |};
   angle ← Api.GetPlayerAngle example_api (target w');
   Done (trace w', angle))
  = Done ([StatusLine 1 0; Sleep 10; ClearScreen], 90).
Proof. vm_compute. reflexivity. Qed.

(** ** The input-state bytes *)

Section MovementFacts.
Import Memory Api.

Implicit Types (api : SuperHexagonApi) (p : gmap Z Z).

Lemma Write_BYTE_Done p (a v : Z) p' :
  Write_BYTE p a v = Done p' ->
  p' !! a = Some (v mod 256) /\ forall x, x <> a -> p' !! x = p !! x.
Proof.
  intros Hw. unfold Write_BYTE in Hw. split.
  - pose proof (Write_stored _ _ _ _ Hw) as Hs. cbn in Hs.
    destruct (p' !! a) as [b|]; [|discriminate]. now injection Hs as ->.
  - intros x Hx. apply (Write_outside _ _ _ _ x Hw). cbn. lia.
Qed.

Lemma input_fields_distinct api :
  field api Offsets.MouseDownLeft <> field api Offsets.MouseDownRight /\
  field api Offsets.MouseDownLeft <> field api Offsets.MouseDown /\
  field api Offsets.MouseDownRight <> field api Offsets.MouseDown.
Proof.
  pose proof (field_apart api Offsets.MouseDownLeft Offsets.MouseDownRight 1
                ltac:(lia) ltac:(vm_compute; discriminate) ltac:(vm_compute; discriminate)).
  pose proof (field_apart api Offsets.MouseDownLeft Offsets.MouseDown 1
                ltac:(lia) ltac:(vm_compute; discriminate) ltac:(vm_compute; discriminate)).
  pose proof (field_apart api Offsets.MouseDownRight Offsets.MouseDown 1
                ltac:(lia) ltac:(vm_compute; discriminate) ltac:(vm_compute; discriminate)).
  lia.
Qed.

Lemma ReleaseMouse_Done api p p' :
  ReleaseMouse api p = Done p' ->
  p' !! field api Offsets.MouseDownLeft = Some 0 /\
  p' !! field api Offsets.MouseDownRight = Some 0 /\
  p' !! field api Offsets.MouseDown = Some 0.
Proof.
  intros H. unfold ReleaseMouse in H.
  apply bind_Done in H as (p1 & H1 & H).
  apply bind_Done in H as (p2 & H2 & H3).
  apply Write_BYTE_Done in H1 as [H1 _], H2 as [H2 K2], H3 as [H3 K3].
  destruct (input_fields_distinct api) as (D1 & D2 & D3).
  split; [rewrite K3, K2 by congruence; exact H1|].
  split; [rewrite K3 by congruence; exact H2 | exact H3].
Qed.

Lemma StartMovingLeft_Done api p p' :
  StartMovingLeft api p = Done p' ->
  p' !! field api Offsets.MouseDownLeft = Some 1 /\
  p' !! field api Offsets.MouseDown = Some 1 /\
  p' !! field api Offsets.MouseDownRight = p !! field api Offsets.MouseDownRight.
Proof.
  intros H. unfold StartMovingLeft in H.
  apply bind_Done in H as (p1 & H1 & H2).
  apply Write_BYTE_Done in H1 as [H1 K1], H2 as [H2 K2].
  destruct (input_fields_distinct api) as (D1 & D2 & D3).
  split; [rewrite K2 by congruence; exact H1|].
  split; [exact H2|].
  rewrite K2, K1 by congruence. reflexivity.
Qed.

Lemma StartMovingRight_Done api p p' :
  StartMovingRight api p = Done p' ->
  p' !! field api Offsets.MouseDownRight = Some 1 /\
  p' !! field api Offsets.MouseDown = Some 1 /\
  p' !! field api Offsets.MouseDownLeft = p !! field api Offsets.MouseDownLeft.
Proof.
  intros H. unfold StartMovingRight in H.
  apply bind_Done in H as (p1 & H1 & H2).
  apply Write_BYTE_Done in H1 as [H1 K1], H2 as [H2 K2].
  destruct (input_fields_distinct api) as (D1 & D2 & D3).
  split; [rewrite K2 by congruence; exact H1|].
  split; [exact H2|].
  rewrite K2, K1 by congruence. reflexivity.
Qed.

Lemma exclusive_keeps_grip api (ds : list Movement) :
  forall g p p',
    grip_holds api p g -> exclusive g ds = true ->
    setMovements api p ds = Done p' ->
    exists g', grip_holds api p' g'.
Proof.
  induction ds as [|d ds IH]; intros g p p' Hg Hex Hrun.
  - injection Hrun as <-. eauto.
  - cbn [setMovements] in Hrun. apply bind_Done in Hrun as (p1 & Hd & Hrest).
    destruct d; cbn [setMovement exclusive] in *.
    + destruct g; try discriminate;
        apply StartMovingLeft_Done in Hd as (_ & _ & Hr);
        apply (IH HoldsLeft p1 p'); auto; cbn; rewrite Hr;
        cbn in Hg; tauto.
    + destruct g; try discriminate;
        apply StartMovingRight_Done in Hd as (_ & _ & Hl);
        apply (IH HoldsRight p1 p'); auto; cbn; rewrite Hl;
        cbn in Hg; tauto.
    + apply ReleaseMouse_Done in Hd as (Hl & Hr & _).
      apply (IH Free p1 p'); auto. cbn. auto.
Qed.

Lemma grip_not_both api p (g : grip) :
  grip_holds api p g ->
  ~ (asserted api p Offsets.MouseDownLeft /\ asserted api p Offsets.MouseDownRight).
Proof.
  intros Hg [(bl & Hl & Hbl) (br & Hr & Hbr)].
  destruct g; cbn in Hg; [destruct Hg as [Hg _]| |]; congruence.
Qed.

End MovementFacts.

(** C9 fails as stated: [StartMovingLeft] followed by [StartMovingRight]
    leaves both direction bytes asserted. *)
Lemma C9_counterexample :
  (p' ← setMovements example_api (example_target 6 0 0 []) [MoveLeft; MoveRight];
   Done (p' !! Api.field example_api Offsets.MouseDownLeft,
         p' !! Api.field example_api Offsets.MouseDownRight))
  = Done (Some 1, Some 1).
Proof. vm_compute. reflexivity. Qed.

(** C9, amended. [ReleaseMouse] clears the three input-state bytes; each of
    [StartMovingLeft] and [StartMovingRight] sets its own direction byte and
    the input-active flag and leaves the other direction byte as it was.
    So at most one direction is asserted after a sequence of calls that
    starts with a release and releases again before it changes direction. *)
Theorem C9_one_direction_when_released_between (api : SuperHexagonApi) :
  (forall p p', Api.ReleaseMouse api p = Done p' ->
     p' !! Api.field api Offsets.MouseDownLeft = Some 0 /\
     p' !! Api.field api Offsets.MouseDownRight = Some 0 /\
     p' !! Api.field api Offsets.MouseDown = Some 0) /\
  (forall p p', Api.StartMovingLeft api p = Done p' ->
     p' !! Api.field api Offsets.MouseDownLeft = Some 1 /\
     p' !! Api.field api Offsets.MouseDown = Some 1 /\
     p' !! Api.field api Offsets.MouseDownRight
       = p !! Api.field api Offsets.MouseDownRight) /\
  (forall p p', Api.StartMovingRight api p = Done p' ->
     p' !! Api.field api Offsets.MouseDownRight = Some 1 /\
     p' !! Api.field api Offsets.MouseDown = Some 1 /\
     p' !! Api.field api Offsets.MouseDownLeft
       = p !! Api.field api Offsets.MouseDownLeft) /\
  (forall p ds p',
     setMovements api p (Released :: ds) = Done p' ->
     exclusive Free ds = true ->
     ~ (asserted api p' Offsets.MouseDownLeft /\
        asserted api p' Offsets.MouseDownRight)).
Proof.
  split; [exact (ReleaseMouse_Done api)|].
  split; [exact (StartMovingLeft_Done api)|].
  split; [exact (StartMovingRight_Done api)|].
  intros p ds p' Hrun Hex. cbn [setMovements setMovement] in Hrun.
  apply bind_Done in Hrun as (p1 & Hrel & Hrest).
  apply ReleaseMouse_Done in Hrel as (Hl & Hr & _).
  destruct (exclusive_keeps_grip api ds Free p1 p') as [g Hg]; auto.
  - cbn. auto.
  - exact (grip_not_both api p' g Hg).
Qed.

Lemma C9_witness :
  match setMovements example_api (example_target 6 0 0 [])
          [Released; MoveLeft; MoveLeft; Released; MoveRight] with
  | Done p' =>
      ~ (asserted example_api p' Offsets.MouseDownLeft /\
         asserted example_api p' Offsets.MouseDownRight)
  | Abort _ => False
  end.
Proof.
  destruct (setMovements example_api (example_target 6 0 0 [])
              [Released; MoveLeft; MoveLeft; Released; MoveRight]) as [p'|f] eqn:Hrun.
  - apply (proj2 (proj2 (proj2 (C9_one_direction_when_released_between example_api)))
             (example_target 6 0 0 []) [MoveLeft; MoveLeft; Released; MoveRight] p' Hrun).
    reflexivity.
  - vm_compute in Hrun. discriminate Hrun.
Defined.

(** ** A slot count of zero *)

Lemma for_each_wall_zero_live (ws : list Wall) :
  Exists (fun a => live a = true) ws ->
  for_each_wall 0 ws [] = Abort DivisionByZero.
Proof.
  induction ws as [|a ws IH]; intros Hex; [inversion Hex|].
  cbn [for_each_wall]. unfold visit_wall. fold (live a).
  destruct (live a) eqn:Hlive; [reflexivity|].
  cbn [mbind run_bind]. apply IH. inversion Hex; [congruence | assumption].
Qed.

Lemma for_each_wall_zero_dead (ws : list Wall) :
  Forall (fun a => live a = false) ws ->
  for_each_wall 0 ws [] = Done [].
Proof.
  induction 1 as [|a ws Ha _ IH]; [reflexivity|].
  cbn [for_each_wall]. unfold visit_wall. fold (live a). rewrite Ha.
  cbn [mbind run_bind]. exact IH.
Qed.

Lemma live_or_dead (ws : list Wall) :
  Exists (fun a => live a = true) ws \/ Forall (fun a => live a = false) ws.
Proof.
  induction ws as [|a ws [IH|IH]]; [right; constructor | left; now constructor 2 |].
  destruct (live a) eqn:Hlive; [left; now constructor 1 | right; now constructor].
Qed.

(** C10 fails as stated: with a slot count of 0 and a non-empty wall list
    that holds no enabled wall of positive distance, the selection runs to
    its end without a modulo and answers slot 0. *)
Lemma C10_counterexample : select_slot 0 [wall 3 7 0] = Done 0.
Proof. reflexivity. Qed.

(** C10, amended. Nothing guards a slot count of 0. [SetPlayerSlot] then
    divides by zero. The selection of a turn reduces a slot index modulo
    zero as soon as the list holds an enabled wall of positive distance;
    on a list without such a wall it answers slot 0 from an empty array and
    the division by zero is that of the [SetPlayerSlot] call that follows.
    Either way the turn does not complete. *)
Theorem C10_zero_slot_count_is_unguarded :
  (forall api p s,
     Api.GetNumSlots api p = Done 0 ->
     Api.SetPlayerSlot api p s = Abort DivisionByZero) /\
  (forall ws,
     Exists (fun a => live a = true) ws ->
     select_slot 0 ws = Abort DivisionByZero) /\
  (forall ws,
     Forall (fun a => live a = false) ws ->
     select_slot 0 ws = Done 0) /\
  (forall api api' w,
     Api.UpdateWalls api (target w) = Done api' ->
     walls api' <> [] ->
     Api.GetNumSlots api' (target w) = Done 0 ->
     exists f, iteration api w = Abort f /\ (f = DivisionByZero \/ f = AssertFailure)).
Proof.
  assert (Hset : forall api p s,
     Api.GetNumSlots api p = Done 0 ->
     Api.SetPlayerSlot api p s = Abort DivisionByZero).
  { intros api p s Hn. unfold Api.SetPlayerSlot. rewrite Hn. reflexivity. }
  assert (Hlive : forall ws,
     Exists (fun a => live a = true) ws ->
     select_slot 0 ws = Abort DivisionByZero).
  { intros ws Hex. unfold select_slot. cbn [Z.to_nat replicate].
    now rewrite for_each_wall_zero_live. }
  assert (Hdead : forall ws,
     Forall (fun a => live a = false) ws ->
     select_slot 0 ws = Done 0).
  { intros ws Hall. unfold select_slot. cbn [Z.to_nat replicate].
    now rewrite for_each_wall_zero_dead. }
  split; [exact Hset|]. split; [exact Hlive|]. split; [exact Hdead|].
  intros api api' w Hupdate Hws Hn. unfold iteration. rewrite Hupdate.
  cbn [mbind run_bind]. destruct (walls api') as [|a ws] eqn:Hwalls; [congruence|].
  rewrite Hn. cbn [mbind run_bind].
  destruct (live_or_dead (a :: ws)) as [Hex|Hnone].
  - rewrite (Hlive _ Hex). cbn [mbind run_bind]. eauto.
  - rewrite (Hdead _ Hnone). cbn [mbind run_bind].
    destruct (Api.GetWorldAngle api' (target w)) as [wa|f] eqn:Hwa; cbn [mbind run_bind].
    + rewrite (Hset api' (target w) 0 Hn). cbn [mbind run_bind]. eauto.
    + exists f. split; [reflexivity|]. right.
      exact (Read_DWORD_Abort _ _ _ Hwa).
Qed.

Lemma C10_witness :
  Api.SetPlayerSlot example_api (example_target 0 0 0 []) 2 = Abort DivisionByZero /\
  select_slot 0 [wall 0 50 1] = Abort DivisionByZero /\
  select_slot 0 [wall 0 50 0] = Done 0.
Proof.
  split; [|split].
  - apply (proj1 C10_zero_slot_count_is_unguarded). vm_compute. reflexivity.
  - apply (proj1 (proj2 C10_zero_slot_count_is_unguarded)).
    constructor 1. reflexivity.
  - apply (proj1 (proj2 (proj2 C10_zero_slot_count_is_unguarded))).
    constructor; [reflexivity | constructor].
Defined.

(** * Further properties of the program *)

(** ** The constructor *)

(** X1. The constructor reads the base address at the fixed location
    [0x694B00]; it returns an object only for a base address that is not
    zero, with an empty wall list, and otherwise stops on an assertion. *)
Theorem X1_attach_needs_a_base_address (p : gmap Z Z) :
  match Api.attach p with
  | Done api =>
      Memory.Read_DWORD p Offsets.BasePointer = Done (appBase api) /\
      appBase api <> 0 /\
      walls api = []
  | Abort f =>
      f = AssertFailure /\
      (Memory.Read_DWORD p Offsets.BasePointer = Abort AssertFailure \/
       Memory.Read_DWORD p Offsets.BasePointer = Done 0)
  end.
Proof.
  unfold Api.attach.
  destruct (Memory.Read_DWORD p Offsets.BasePointer) as [base|f] eqn:Hread;
    cbn [mbind run_bind].
  - destruct (Z.eqb_spec base 0) as [->|Hne]; cbn [negb assert]; auto.
  - pose proof (Read_DWORD_Abort _ _ _ Hread) as ->. auto.
Qed.

(** ** The world angle *)

(** X2. [SetWorldAngle(a)] followed by [GetWorldAngle()] returns [a] reduced
    to 32 bits, and the write changes no byte outside the four bytes of the
    world-angle field. *)
Theorem X2_world_angle_round_trip
    (api : SuperHexagonApi) (p p' : gmap Z Z) (a : Z) :
  Api.SetWorldAngle api p a = Done p' ->
  Api.GetWorldAngle api p' = Done (wrap32 a) /\
  (forall x,
      x < Api.field api Offsets.WorldAngle \/ Api.field api Offsets.WorldAngle + 4 <= x ->
      p' !! x = p !! x).
Proof.
  intros Hset. unfold Api.SetWorldAngle, Memory.Write_DWORD in Hset. split.
  - pose proof (Read_after_Write _ _ _ _ Hset) as Hread.
    rewrite length_to_bytes in Hread. change (Z.of_nat 4) with 4 in Hread.
    unfold Api.GetWorldAngle, Memory.Read_DWORD. rewrite Hread.
    cbn [mbind run_bind]. now rewrite of_to_bytes.
  - intros x Hx. apply (Write_outside _ _ _ _ x Hset).
    rewrite length_to_bytes. lia.
Qed.

Lemma X2_witness :
  (p' ← Api.SetWorldAngle example_api (example_target 6 0 0 []) 4294967297;
   Api.GetWorldAngle example_api p') = Done 1.
Proof.
  destruct (Api.SetWorldAngle example_api (example_target 6 0 0 []) 4294967297)
    as [p'|f] eqn:Hset; cbn [mbind run_bind].
  - exact (proj1 (X2_world_angle_round_trip example_api _ p' 4294967297 Hset)).
  - vm_compute in Hset. discriminate Hset.
Defined.

(** ** The wall table *)

Lemma peek_split (p : gmap Z Z) (a : Z) (n m : nat) :
  length (Win32.peek p a (n + m)) = (n + m)%nat ->
  Win32.peek p a (n + m) = Win32.peek p a n ++ Win32.peek p (a + Z.of_nat n) m /\
  length (Win32.peek p a n) = n /\
  length (Win32.peek p (a + Z.of_nat n) m) = m.
Proof.
  revert a; induction n as [|n IH]; intros a Hlen.
  - cbn [Nat.add Win32.peek app length Z.of_nat] in *. rewrite Z.add_0_r. auto.
  - cbn [Nat.add Win32.peek] in *. destruct (p !! a) as [b|]; [|discriminate].
    cbn [length] in Hlen. destruct (IH (a + 1) ltac:(lia)) as (Happ & Hn & Hm).
    replace (a + Z.of_nat (S n)) with (a + 1 + Z.of_nat n) by lia.
    cbn [app length]. rewrite Happ at 1. auto.
Qed.

Lemma peek_drop (p : gmap Z Z) (a : Z) (n k : nat) :
  length (Win32.peek p a n) = n -> (k <= n)%nat ->
  drop k (Win32.peek p a n) = Win32.peek p (a + Z.of_nat k) (n - k) /\
  length (Win32.peek p (a + Z.of_nat k) (n - k)) = (n - k)%nat.
Proof.
  intros Hlen Hk. replace n with (k + (n - k))%nat in Hlen at 1 2 by lia.
  destruct (peek_split p a k (n - k) Hlen) as (Happ & Hk' & Hrest).
  split; [|exact Hrest].
  replace n with (k + (n - k))%nat at 1 by lia.
  rewrite Happ, drop_app_length'; [reflexivity | now symmetry].
Qed.

Lemma peek_take (p : gmap Z Z) (a : Z) (n k : nat) :
  length (Win32.peek p a n) = n -> (k <= n)%nat ->
  take k (Win32.peek p a n) = Win32.peek p a k /\
  length (Win32.peek p a k) = k.
Proof.
  intros Hlen Hk. replace n with (k + (n - k))%nat in Hlen at 1 2 by lia.
  destruct (peek_split p a k (n - k) Hlen) as (Happ & Hk' & Hrest).
  split; [|exact Hk'].
  replace n with (k + (n - k))%nat at 1 by lia.
  rewrite Happ, take_app_length'; [reflexivity | now symmetry].
Qed.

(** A field of a record that lies inside a fully read range. *)
Lemma peek_field (p : gmap Z Z) (a : Z) (n off k : nat) :
  length (Win32.peek p a n) = n -> (off + k <= n)%nat ->
  take k (drop off (Win32.peek p a n)) = Win32.peek p (a + Z.of_nat off) k /\
  length (Win32.peek p (a + Z.of_nat off) k) = k.
Proof.
  intros Hlen Hin.
  destruct (peek_drop p a n off Hlen ltac:(lia)) as (-> & Hrest).
  exact (peek_take p (a + Z.of_nat off) (n - off) k Hrest ltac:(lia)).
Qed.

Lemma length_Walls_of_bytes (count : nat) (bs : list Z) :
  length (Walls_of_bytes count bs) = count.
Proof.
  revert bs; induction count as [|count IH]; intros bs; [reflexivity|].
  cbn [Walls_of_bytes length]. now rewrite IH.
Qed.

Lemma Walls_of_bytes_lookup (count : nat) (bs : list Z) (i : nat) :
  (i < count)%nat ->
  Walls_of_bytes count bs !! i = Some (Wall_of_bytes (take 20 (drop (20 * i) bs))).
Proof.
  revert bs i; induction count as [|count IH]; intros bs i Hi; [lia|].
  cbn [Walls_of_bytes]. destruct i as [|i].
  - reflexivity.
  - transitivity (Walls_of_bytes count (drop 20 bs) !! i); [reflexivity|].
    rewrite (IH (drop 20 bs) i) by lia.
    rewrite drop_drop. replace (20 + 20 * i)%nat with (20 * S i)%nat by lia.
    reflexivity.
Qed.

Lemma Read_DWORD_peek (p : gmap Z Z) (a : Z) :
  length (Win32.peek p a 4) = 4%nat ->
  Memory.Read_DWORD p a = Done (of_bytes (Win32.peek p a 4)).
Proof.
  intros Hlen. unfold Memory.Read_DWORD, Memory.Read, Memory.read_checked,
    Win32.ReadProcessMemory. cbn [Win32.rd_success Win32.rd_count Win32.rd_data].
  change (Z.to_nat 4) with 4%nat. rewrite Hlen. reflexivity.
Qed.

Lemma UpdateWalls_Done (api api' : SuperHexagonApi) (p : gmap Z Z) :
  Api.UpdateWalls api p = Done api' ->
  exists numWalls,
    Api.GetNumWalls api p = Done numWalls /\
    0 <= numWalls /\
    length (Win32.peek p (Api.field api Offsets.FirstWall) (Z.to_nat (20 * numWalls)))
      = Z.to_nat (20 * numWalls) /\
    api' = {| appBase := appBase api;
              walls := Walls_of_bytes (Z.to_nat numWalls)
                         (Win32.peek p (Api.field api Offsets.FirstWall)
                            (Z.to_nat (20 * numWalls))) |}.
Proof.
  intros H. unfold Api.UpdateWalls in H.
  apply bind_Done in H as (numWalls & Hcount & H).
  apply bind_Done in H as (buffer & Hread & H). injection H as <-.
  unfold Memory.ReadBytes in Hread. fold (Memory.Read p (Api.field api Offsets.FirstWall)
    (sizeof_Wall * numWalls)) in Hread.
  apply Read_Done in Hread as [-> Hlen]. unfold sizeof_Wall in *.
  exists numWalls. split; [exact Hcount|].
  split; [lia|]. split; [lia | reflexivity].
Qed.

(** X3. After [UpdateWalls] the wall list has as many entries as the wall
    count read from the game, the base address is kept, and entry [i] is
    the packed record at [FirstWall + 20 * i]: its slot is the [DWORD] at
    offset 0 of the record, its distance the [DWORD] at offset 4 and its
    enabled flag the byte at offset 8. *)
Theorem X3_UpdateWalls_reads_the_packed_records
    (api api' : SuperHexagonApi) (p : gmap Z Z) :
  Api.UpdateWalls api p = Done api' ->
  appBase api' = appBase api /\
  Api.GetNumWalls api p = Done (Z.of_nat (length (walls api'))) /\
  (forall (i : nat) (a : Wall),
      walls api' !! i = Some a ->
      Memory.Read_DWORD p (wall_address api i) = Done (slot a) /\
      Memory.Read_DWORD p (wall_address api i + 4) = Done (distance a) /\
      p !! (wall_address api i + 8) = Some (enabled a)).
Proof.
  intros Hupdate.
  destruct (UpdateWalls_Done api api' p Hupdate) as (nw & Hcount & Hnw & Hfull & ->).
  cbn [appBase walls]. split; [reflexivity|].
  rewrite length_Walls_of_bytes. split; [now rewrite Z2Nat.id by lia|].
  intros i a Hi.
  assert (Hlt : (i < Z.to_nat nw)%nat).
  { apply lookup_lt_Some in Hi. now rewrite length_Walls_of_bytes in Hi. }
  rewrite Walls_of_bytes_lookup in Hi by exact Hlt. apply (inj Some) in Hi.
  subst a.
  set (F := Api.field api Offsets.FirstWall) in *.
  set (L := Z.to_nat (20 * nw)) in *.
  destruct (peek_field p F L (20 * i) 20 Hfull ltac:(lia)) as (Hrec & Hreclen).
  rewrite Hrec. unfold Wall_of_bytes. cbn [slot distance enabled].
  assert (Haddr : F + Z.of_nat (20 * i) = wall_address api i).
  { unfold wall_address, sizeof_Wall. fold F. lia. }
  rewrite Haddr in *.
  destruct (peek_take p (wall_address api i) 20 4 Hreclen ltac:(lia)) as (-> & Hslot).
  destruct (peek_field p (wall_address api i) 20 4 4 Hreclen ltac:(lia))
    as (-> & Hdist).
  destruct (peek_field p (wall_address api i) 20 8 1 Hreclen ltac:(lia))
    as (-> & Hflag).
  change (Z.of_nat 4) with 4 in *. change (Z.of_nat 8) with 8 in *.
  split; [now apply Read_DWORD_peek|]. split; [now apply Read_DWORD_peek|].
  cbn [Win32.peek] in *. destruct (p !! (wall_address api i + 8)) as [b|];
    [|discriminate]. cbn [of_bytes]. f_equal. lia.
Qed.

Lemma X3_witness :
  match Api.UpdateWalls example_api (target scenario_world) with
  | Done api' =>
      appBase api' = appBase example_api /\
      Api.GetNumWalls example_api (target scenario_world)
        = Done (Z.of_nat (length (walls api'))) /\
      (forall (i : nat) (a : Wall),
          walls api' !! i = Some a ->
          Memory.Read_DWORD (target scenario_world) (wall_address example_api i)
            = Done (slot a) /\
          Memory.Read_DWORD (target scenario_world) (wall_address example_api i + 4)
            = Done (distance a) /\
          target scenario_world !! (wall_address example_api i + 8) = Some (enabled a))
  | Abort _ => False
  end.
Proof.
  destruct (Api.UpdateWalls example_api (target scenario_world)) as [api'|f] eqn:Hupdate.
  - exact (X3_UpdateWalls_reads_the_packed_records example_api api' _ Hupdate).
  - vm_compute in Hupdate. discriminate Hupdate.
Defined.

(** ** More on the slot selection *)

Lemma nearest_free (n : Z) (ws : list Wall) (s : Z) :
  free_lane n ws s -> nearest n ws s = DWORD_MAX.
Proof.
  induction 1 as [|a ws Ha _ IH]; [reflexivity|]. cbn [nearest].
  destruct (live a) eqn:Hlive; cbn [andb]; [|exact IH].
  destruct (Z.eqb_spec (slot a mod n) s) as [Heq|_]; [|exact IH].
  now destruct (Ha eq_refl).
Qed.

Lemma nearest_le_wall (n : Z) (ws : list Wall) (a : Wall) :
  a ∈ ws -> live a = true -> nearest n ws (slot a mod n) <= distance a.
Proof.
  intros Hin Hlive. induction ws as [|b ws IH]; [now apply elem_of_nil in Hin|].
  cbn [nearest]. apply elem_of_cons in Hin as [<-|Hin].
  - rewrite Hlive, Z.eqb_refl. cbn [andb]. lia.
  - specialize (IH Hin).
    destruct (live b && (slot b mod n =? slot a mod n)); lia.
Qed.

Lemma nearest_Permutation (n : Z) (ws ws' : list Wall) (s : Z) :
  ws ≡ₚ ws' -> nearest n ws s = nearest n ws' s.
Proof.
  induction 1 as [|a ws ws' _ IH|a b ws|ws ws' ws'' _ IH1 _ IH2]; cbn [nearest].
  - reflexivity.
  - now rewrite IH.
  - destruct (live a && (slot a mod n =? s)), (live b && (slot b mod n =? s)); lia.
  - congruence.
Qed.


(** The selection depends on the walls through the per-slot minima only. *)
Lemma select_slot_ext (n : Z) (ws ws' : list Wall) :
  1 <= n ->
  (forall s, 0 <= s < n -> nearest n ws s = nearest n ws' s) ->
  select_slot n ws = select_slot n ws'.
Proof.
  intros Hn Hsame. unfold select_slot.
  destruct (for_each_wall_ok n ws (replicate (Z.to_nat n) DWORD_MAX))
    as (v & Hv & Hlen & Hget);
    [lia | apply length_replicate | intros j x [-> _]%lookup_replicate; lia |].
  destruct (for_each_wall_ok n ws' (replicate (Z.to_nat n) DWORD_MAX))
    as (v' & Hv' & Hlen' & Hget');
    [lia | apply length_replicate | intros j x [-> _]%lookup_replicate; lia |].
  rewrite Hv, Hv'. replace v' with v; [reflexivity|].
  rewrite length_replicate in Hlen, Hlen'.
  apply list_eq. intros j. destruct (decide (j < Z.to_nat n)%nat) as [Hj|Hj].
  - rewrite (Hget j DWORD_MAX), (Hget' j DWORD_MAX)
      by (apply lookup_replicate; split; [reflexivity | lia]).
    rewrite Hsame by lia. reflexivity.
  - rewrite !lookup_ge_None_2 by lia. reflexivity.
Qed.

(** X4. When every enabled wall of positive distance lies in one lane [s],
    one of them nearer than the greatest [DWORD], and there are at least
    two slots, the selection answers the lowest other slot: 0, or 1 when
    [s] is 0. *)
Theorem X4_single_blocked_lane_is_avoided (n : Z) (ws : list Wall) (s : Z) :
  2 <= n <= DWORD_MAX ->
  0 <= s < n ->
  Forall (fun a => live a = true -> slot a mod n = s) ws ->
  Exists (fun a => live a = true /\ distance a < DWORD_MAX) ws ->
  select_slot n ws = Done (if s =? 0 then 1 else 0).
Proof.
  intros Hn Hs Hlane Hnear.
  assert (Hfree : forall j, j <> s -> nearest n ws j = DWORD_MAX).
  { intros j Hj. apply nearest_free. unfold free_lane.
    eapply Forall_impl; [exact Hlane|]. cbn beta. intros a Ha Hlive.
    rewrite (Ha Hlive). congruence. }
  assert (Hblocked : nearest n ws s < DWORD_MAX).
  { apply Exists_exists in Hnear as (a & Hin & Hlive & Hd).
    rewrite Forall_forall in Hlane. rewrite <- (Hlane a Hin Hlive).
    pose proof (nearest_le_wall n ws a Hin Hlive). lia. }
  destruct (select_slot_spec n ws ltac:(lia))
    as (_ & r & _ & _ & _ & Hsel & Hr & Hmax & Hfirst).
  rewrite Hsel. f_equal.
  assert (Hrs : r <> s).
  { intros ->. destruct (Z.eq_dec s 0) as [->|Hs0].
    - specialize (Hmax 1 ltac:(lia)). rewrite (Hfree 1) in Hmax by lia. lia.
    - specialize (Hmax 0 ltac:(lia)). rewrite (Hfree 0) in Hmax by lia. lia. }
  destruct (Z.eqb_spec s 0) as [->|Hs0].
  - destruct (Z.eq_dec r 1) as [|Hr1]; [assumption|].
    specialize (Hfirst 1 ltac:(lia)).
    rewrite (Hfree 1), (Hfree r) in Hfirst by lia. lia.
  - destruct (Z.eq_dec r 0) as [|Hr0]; [assumption|].
    specialize (Hfirst 0 ltac:(lia)).
    rewrite (Hfree 0), (Hfree r) in Hfirst by lia. lia.
Qed.

Lemma X4_witness : select_slot 4 [wall 4 9 1; wall 3 5 0; wall 0 2 1] = Done 1.
Proof.
  apply (X4_single_blocked_lane_is_avoided 4 [wall 4 9 1; wall 3 5 0; wall 0 2 1] 0).
  - unfold DWORD_MAX; lia.
  - lia.
  - repeat constructor; cbn; congruence.
  - constructor 1. split; [reflexivity | unfold DWORD_MAX; cbn; lia].
Defined.

(** X5. The order of the walls in the table does not matter: two wall lists
    that are permutations of each other get the same decision. *)
Theorem X5_decision_ignores_wall_order (n : Z) (ws ws' : list Wall) :
  1 <= n ->
  ws ≡ₚ ws' ->
  SlotSelector n ws = SlotSelector n ws'.
Proof.
  intros Hn Hperm. destruct ws as [|a ws].
  - apply Permutation_nil_l in Hperm as ->. reflexivity.
  - destruct ws' as [|a' ws'].
    + now apply Permutation_nil_r in Hperm.
    + cbn [SlotSelector].
      rewrite (select_slot_ext n (a :: ws) (a' :: ws') Hn); [reflexivity|].
      intros s _. now apply nearest_Permutation.
Qed.

Lemma X5_witness :
  SlotSelector 6 scenario_walls = SlotSelector 6 [wall 2 10 1; wall 0 50 1].
Proof.
  apply (X5_decision_ignores_wall_order 6 scenario_walls [wall 2 10 1; wall 0 50 1]).
  - lia.
  - apply Permutation_swap.
Defined.



(** X7. When some lane holds no enabled wall of positive distance, the
    selected slot is at most the index of that lane, and no enabled wall of
    positive distance in the selected lane is nearer than the greatest
    [DWORD]. *)
Theorem X7_a_free_lane_is_preferred (n : Z) (ws : list Wall) (s0 : Z) :
  1 <= n <= DWORD_MAX ->
  0 <= s0 < n ->
  free_lane n ws s0 ->
  exists r,
    select_slot n ws = Done r /\
    0 <= r <= s0 /\
    forall a, a ∈ ws -> live a = true -> slot a mod n = r -> DWORD_MAX <= distance a.
Proof.
  intros Hn Hs0 Hfree0.
  destruct (select_slot_spec n ws Hn)
    as (_ & r & _ & _ & _ & Hsel & Hr & Hmax & Hfirst).
  pose proof (nearest_free n ws s0 Hfree0) as Hfar.
  pose proof (nearest_le_max n ws r) as Hle.
  specialize (Hmax s0 Hs0).
  exists r. split; [exact Hsel|]. split.
  - destruct (Z_le_gt_dec r s0) as [|Hgt]; [lia|].
    specialize (Hfirst s0 ltac:(lia)). lia.
  - intros a Hin Hlive <-. pose proof (nearest_le_wall n ws a Hin Hlive). lia.
Qed.

Lemma X7_witness :
  exists r,
    select_slot 3 [wall 0 8 1; wall 1 9 1] = Done r /\
    0 <= r <= 2 /\
    forall a, a ∈ [wall 0 8 1; wall 1 9 1] -> live a = true -> slot a mod 3 = r ->
              DWORD_MAX <= distance a.
Proof.
  apply (X7_a_free_lane_is_preferred 3 [wall 0 8 1; wall 1 9 1] 2).
  - unfold DWORD_MAX; lia.
  - lia.
  - unfold free_lane. constructor; [vm_compute; intros _ H; discriminate H|].
    constructor; [vm_compute; intros _ H; discriminate H|]. constructor.
Defined.

(** ** More on [SetPlayerSlot] *)

Lemma slot_centre_below_360 (n s : Z) :
  1 <= n -> 0 <= 360 / n * (s mod n) + 180 / n < 360.
Proof.
  intros Hn. pose proof (slot_centre_range n s Hn) as [Hlow _]. split; [exact Hlow|].
  pose proof (Z.mod_pos_bound s n ltac:(lia)) as Hr.
  pose proof (Z.div_pos 360 n ltac:(lia) ltac:(lia)) as Hq0.
  pose proof (Z.div_pos 180 n ltac:(lia) ltac:(lia)) as Hh0.
  pose proof (Z.mul_div_le 360 n ltac:(lia)) as Hq.
  pose proof (Z.mul_div_le 180 n ltac:(lia)) as Hh.
  assert (Hhq : 2 * (180 / n) <= 360 / n) by (apply Z.div_le_lower_bound; lia).
  assert (Hprod : 360 / n * (s mod n) <= 360 / n * (n - 1)) by nia.
  destruct (Z.eq_dec (360 / n) 0) as [Hzero|Hpos]; [rewrite Hzero in *; lia|].
  nia.
Qed.

(** X8. With at least one slot, the angle that [SetPlayerSlot] stores is
    always below 360, whatever the slot it is given. *)
Theorem X8_SetPlayerSlot_angle_below_360
    (api : SuperHexagonApi) (p p' : gmap Z Z) (s n : Z) :
  Api.GetNumSlots api p = Done n ->
  1 <= n ->
  Api.SetPlayerSlot api p s = Done p' ->
  exists angle, Api.GetPlayerAngle api p' = Done angle /\ 0 <= angle < 360.
Proof.
  intros Hn Hpos Hset.
  destruct (SetPlayerSlot_Done api p s n p' Hn Hpos Hset) as (Hangle & _).
  eexists. split; [exact Hangle|]. now apply slot_centre_below_360.
Qed.

Lemma X8_witness :
  match Api.SetPlayerSlot example_api (example_target 7 0 0 []) 4294967295 with
  | Done p' =>
      exists angle, Api.GetPlayerAngle example_api p' = Done angle /\ 0 <= angle < 360
  | Abort _ => False
  end.
Proof.
  destruct (Api.SetPlayerSlot example_api (example_target 7 0 0 []) 4294967295)
    as [p'|f] eqn:Hset.
  - apply (X8_SetPlayerSlot_angle_below_360 example_api
             (example_target 7 0 0 []) p' 4294967295 7);
      [vm_compute; reflexivity | lia | exact Hset].
  - vm_compute in Hset. discriminate Hset.
Defined.

Lemma SetPlayerSlot_inv (api : SuperHexagonApi) (p p' : gmap Z Z) (s : Z) :
  Api.SetPlayerSlot api p s = Done p' ->
  exists n p1,
    Api.GetNumSlots api p = Done n /\ n <> 0 /\
    Memory.Write_DWORD p (Api.field api Offsets.PlayerAngle)
      (wrap32 (wrap32 (360 / n * (s mod n)) + 180 / n)) = Done p1 /\
    Memory.Write_DWORD p1 (Api.field api Offsets.PlayerAngle2)
      (wrap32 (wrap32 (360 / n * (s mod n)) + 180 / n)) = Done p'.
Proof.
  unfold Api.SetPlayerSlot.
  destruct (Api.GetNumSlots api p) as [n|f]; cbn [mbind run_bind]; [|discriminate].
  unfold udiv, umod. destruct (Z.eqb_spec n 0) as [|Hn]; cbn [mbind run_bind];
    [discriminate|].
  intros H. apply bind_Done in H as (p1 & H1 & H2). eauto 10.
Qed.

Lemma SetPlayerSlot_eq (api : SuperHexagonApi) (p : gmap Z Z) (s n : Z) :
  Api.GetNumSlots api p = Done n -> n <> 0 ->
  Api.SetPlayerSlot api p s =
    (p1 ← Memory.Write_DWORD p (Api.field api Offsets.PlayerAngle)
            (wrap32 (wrap32 (360 / n * (s mod n)) + 180 / n));
     Memory.Write_DWORD p1 (Api.field api Offsets.PlayerAngle2)
            (wrap32 (wrap32 (360 / n * (s mod n)) + 180 / n))).
Proof.
  intros Hn Hne. unfold Api.SetPlayerSlot. rewrite Hn. cbn [mbind run_bind].
  unfold udiv, umod. destruct (Z.eqb_spec n 0) as [|_]; [contradiction|].
  reflexivity.
Qed.

Lemma SetPlayerSlot_frame (api : SuperHexagonApi) (p p' : gmap Z Z) (s : Z) :
  Api.SetPlayerSlot api p s = Done p' ->
  forall x, outside_player_angle api x -> p' !! x = p !! x.
Proof.
  intros Hset x [Hx1 Hx2].
  destruct (SetPlayerSlot_inv api p p' s Hset) as (n & p1 & _ & _ & Hw1 & Hw2).
  unfold Memory.Write_DWORD in Hw1, Hw2.
  rewrite (Write_outside _ _ _ _ x Hw2) by (rewrite length_to_bytes; lia).
  apply (Write_outside _ _ _ _ x Hw1). rewrite length_to_bytes. lia.
Qed.

(** ** More on the input-state bytes *)

Lemma setMovement_frame (api : SuperHexagonApi) (p p' : gmap Z Z) (d : Movement) :
  setMovement api p d = Done p' ->
  forall x, outside_input_state api x -> p' !! x = p !! x.
Proof.
  intros Hd x (Hl & Hr & Ha).
  destruct d; cbn [setMovement] in Hd;
    unfold Api.StartMovingLeft, Api.StartMovingRight, Api.ReleaseMouse in Hd.
  - apply bind_Done in Hd as (p1 & H1 & H2).
    apply Write_BYTE_Done in H1 as [_ K1], H2 as [_ K2].
    now rewrite K2, K1.
  - apply bind_Done in Hd as (p1 & H1 & H2).
    apply Write_BYTE_Done in H1 as [_ K1], H2 as [_ K2].
    now rewrite K2, K1.
  - apply bind_Done in Hd as (p1 & H1 & Hd).
    apply bind_Done in Hd as (p2 & H2 & H3).
    apply Write_BYTE_Done in H1 as [_ K1], H2 as [_ K2], H3 as [_ K3].
    now rewrite K3, K2, K1.
Qed.

(** X9. No sequence of [StartMovingLeft], [StartMovingRight] and
    [ReleaseMouse] calls changes a byte of the target other than the three
    input-state bytes: the slot count, the wall table and the angles are as
    before. *)
Theorem X9_movement_changes_input_bytes_only
    (api : SuperHexagonApi) (ds : list Movement) (p p' : gmap Z Z) :
  setMovements api p ds = Done p' ->
  forall x, outside_input_state api x -> p' !! x = p !! x.
Proof.
  revert p. induction ds as [|d ds IH]; intros p Hrun x Hx.
  - now injection Hrun as <-.
  - cbn [setMovements] in Hrun. apply bind_Done in Hrun as (p1 & Hd & Hrest).
    rewrite (IH p1 Hrest x Hx). exact (setMovement_frame api p p1 d Hd x Hx).
Qed.

Ltac eval_field o :=
  let v := eval vm_compute in (Api.field example_api o) in
  change (Api.field example_api o) with v in *.

Lemma X9_witness :
  match setMovements example_api (example_target 6 0 270 []) [MoveRight; Released] with
  | Done p' => Api.GetPlayerAngle example_api p' = Done 270
  | Abort _ => False
  end.
Proof.
  destruct (setMovements example_api (example_target 6 0 270 []) [MoveRight; Released])
    as [p'|f] eqn:Hrun.
  - unfold Api.GetPlayerAngle, Memory.Read_DWORD.
    rewrite (Read_agree p' (example_target 6 0 270 [])).
    + vm_compute. reflexivity.
    + intros x Hx.
      apply (X9_movement_changes_input_bytes_only example_api _ _ p' Hrun).
      unfold outside_input_state. eval_field Offsets.PlayerAngle.
      eval_field Offsets.MouseDownLeft. eval_field Offsets.MouseDownRight.
      eval_field Offsets.MouseDown. lia.
  - vm_compute in Hrun. discriminate Hrun.
Defined.

(** ** More on the turns of the loop *)

Lemma iteration_inv (api api1 : SuperHexagonApi) (w w1 : World) :
  iteration api w = Done (api1, w1) ->
  Api.UpdateWalls api (target w) = Done api1 /\
  ((walls api1 = [] /\
    w1 = {| target := target w; trace := trace w ++ [Sleep 10; ClearScreen] |}) \/
   (walls api1 <> [] /\
    exists n r wa p',
      Api.GetNumSlots api1 (target w) = Done n /\
      select_slot n (walls api1) = Done r /\
      Api.GetWorldAngle api1 (target w) = Done wa /\
      Api.SetPlayerSlot api1 (target w) r = Done p' /\
      w1 = {| target := p';
              trace := (trace w ++ [StatusLine r wa]) ++ [Sleep 10; ClearScreen] |})).
Proof.
  intros H. unfold iteration in H.
  apply bind_Done in H as (api' & Hupdate & H).
  apply bind_Done in H as (w' & Hbody & H). injection H as <- <-.
  split; [exact Hupdate|].
  destruct (walls api') as [|a ws] eqn:Hwalls.
  - left. injection Hbody as <-. auto.
  - right. split; [discriminate|].
    apply bind_Done in Hbody as (n & Hn & Hbody).
    apply bind_Done in Hbody as (r & Hr & Hbody).
    apply bind_Done in Hbody as (wa & Hwa & Hbody).
    apply bind_Done in Hbody as (p' & Hset & Hbody). injection Hbody as <-.
    exists n, r, wa, p'. auto.
Qed.

Lemma iteration_nonempty (api api1 : SuperHexagonApi) (w : World)
    (n r wa : Z) (p' : gmap Z Z) :
  Api.UpdateWalls api (target w) = Done api1 ->
  walls api1 <> [] ->
  Api.GetNumSlots api1 (target w) = Done n ->
  select_slot n (walls api1) = Done r ->
  Api.GetWorldAngle api1 (target w) = Done wa ->
  Api.SetPlayerSlot api1 (target w) r = Done p' ->
  iteration api w
    = Done (api1, {| target := p';
                     trace := (trace w ++ [StatusLine r wa]) ++ [Sleep 10; ClearScreen] |}).
Proof.
  intros Hupdate Hws Hn Hr Hwa Hset. unfold iteration. rewrite Hupdate.
  cbn [mbind run_bind]. destruct (walls api1) as [|a ws]; [congruence|].
  rewrite Hn. cbn [mbind run_bind]. rewrite Hr. cbn [mbind run_bind].
  rewrite Hwa. cbn [mbind run_bind]. rewrite Hset. reflexivity.
Qed.

(** X10. A turn on a non-empty wall list, with a slot count [n] of at least
    1, a world angle [wa] that can be read and both angle fields writable,
    completes: it prints the selected slot [r] with [wa], then sleeps and
    clears the screen, and leaves the centre [360 / n * r + 180 / n] of
    slot [r] in both angle fields. With at most 18 slots [GetPlayerSlot]
    then answers [r]. *)
Theorem X10_turn_moves_player_to_selected_slot
    (api api1 : SuperHexagonApi) (w : World) (n wa : Z) :
  Api.UpdateWalls api (target w) = Done api1 ->
  walls api1 <> [] ->
  Api.GetNumSlots api1 (target w) = Done n ->
  1 <= n <= DWORD_MAX ->
  Api.GetWorldAngle api1 (target w) = Done wa ->
  accessible (target w) (Api.field api1 Offsets.PlayerAngle) 4 ->
  accessible (target w) (Api.field api1 Offsets.PlayerAngle2) 4 ->
  exists r p',
    select_slot n (walls api1) = Done r /\
    0 <= r < n /\
    iteration api w
      = Done (api1, {| target := p';
                       trace := trace w ++ [StatusLine r wa; Sleep 10; ClearScreen] |}) /\
    Api.GetPlayerAngle api1 p' = Done (360 / n * r + 180 / n) /\
    Memory.Read_DWORD p' (Api.field api1 Offsets.PlayerAngle2)
      = Done (360 / n * r + 180 / n) /\
    (n <= 18 -> Api.GetPlayerSlot api1 p' = Done r).
Proof.
  intros Hupdate Hws Hn Hrange Hwa Ha1 Ha2.
  destruct (select_slot_spec n (walls api1) Hrange)
    as (_ & r & _ & _ & _ & Hsel & Hr & _).
  destruct (SetPlayerSlot_succeeds api1 (target w) r n Hn ltac:(lia) Ha1 Ha2)
    as [p' Hset].
  destruct (SetPlayerSlot_Done api1 (target w) r n p' Hn ltac:(lia) Hset)
    as (Hangle & Hangle2 & Hn' & _).
  exists r, p'. split; [exact Hsel|]. split; [exact Hr|].
  split.
  { rewrite (iteration_nonempty api api1 w n r wa p'); auto.
    now rewrite <- app_assoc. }
  rewrite <- (Z.mod_small r n) at 1 2 by lia.
  split; [exact Hangle|]. split; [exact Hangle2|].
  intros H18. rewrite (GetPlayerSlot_float api1 p' _ n Hangle Hn').
  apply float_slot_of_centre; lia.
Qed.

Lemma X10_witness :
  exists r p',
    select_slot 6 scenario_walls = Done r /\
    0 <= r < 6 /\
    iteration example_api scenario_world
      = Done ({| appBase := 0x10000; walls := scenario_walls |},
              {| target := p';
                 trace := [] ++ [StatusLine r 0; Sleep 10; ClearScreen] |}) /\
    Api.GetPlayerAngle {| appBase := 0x10000; walls := scenario_walls |} p'
      = Done (360 / 6 * r + 180 / 6) /\
    Memory.Read_DWORD p'
      (Api.field {| appBase := 0x10000; walls := scenario_walls |} Offsets.PlayerAngle2)
      = Done (360 / 6 * r + 180 / 6) /\
    (6 <= 18 ->
     Api.GetPlayerSlot {| appBase := 0x10000; walls := scenario_walls |} p' = Done r).
Proof.
  apply (X10_turn_moves_player_to_selected_slot example_api
           {| appBase := 0x10000; walls := scenario_walls |} scenario_world 6 0).
  - vm_compute. reflexivity.
  - discriminate.
  - vm_compute. reflexivity.
  - unfold DWORD_MAX. lia.
  - vm_compute. reflexivity.
  - apply accessibleb_true. vm_compute. reflexivity.
  - apply accessibleb_true. vm_compute. reflexivity.
Defined.

Lemma iteration_frame (api api1 : SuperHexagonApi) (w w1 : World) :
  iteration api w = Done (api1, w1) ->
  appBase api1 = appBase api /\
  (exists evs, trace w1 = trace w ++ evs) /\
  (forall x, outside_player_angle api x -> target w1 !! x = target w !! x).
Proof.
  intros H. apply iteration_inv in H as (Hupdate & Hcases).
  destruct (UpdateWalls_Done api api1 _ Hupdate) as (nw & _ & _ & _ & Hapi1).
  assert (Hbase : appBase api1 = appBase api) by now subst api1.
  split; [exact Hbase|].
  destruct Hcases as [(_ & ->)|(_ & n & r & wa & p' & _ & _ & _ & Hset & ->)];
    cbn [target trace].
  - split; [eauto | auto].
  - split; [rewrite <- app_assoc; eauto|].
    intros x Hx. apply (SetPlayerSlot_frame api1 _ _ r Hset).
    unfold outside_player_angle, Api.field in *. now rewrite Hbase.
Qed.

(** X11. However many turns of the loop complete, the base address is the
    one the loop started with, what was printed before is still at the
    front of the trace, and no byte of the target outside the two
    player-angle fields has changed: the bot never writes the slot count,
    the wall table, the world angle or the input-state bytes. *)
Theorem X11_loop_writes_player_angle_only
    (fuel : nat) (api api' : SuperHexagonApi) (w w' : World) :
  main_loop fuel api w = Done (api', w') ->
  appBase api' = appBase api /\
  (exists evs, trace w' = trace w ++ evs) /\
  (forall x, outside_player_angle api x -> target w' !! x = target w !! x).
Proof.
  revert api w. induction fuel as [|fuel IH]; intros api w Hrun.
  - injection Hrun as <- <-. split; [reflexivity|]. split; [|auto].
    exists []. now rewrite app_nil_r.
  - cbn [main_loop] in Hrun. apply bind_Done in Hrun as ([api1 w1] & Hturn & Hrest).
    destruct (iteration_frame api api1 w w1 Hturn) as (Hbase1 & [evs1 Htrace1] & Hframe1).
    destruct (IH api1 w1 Hrest) as (Hbase & [evs Htrace] & Hframe).
    split; [congruence|]. split.
    + exists (evs1 ++ evs). now rewrite Htrace, Htrace1, app_assoc.
    + intros x Hx. rewrite Hframe; [now apply Hframe1|].
      unfold outside_player_angle, Api.field in *. now rewrite Hbase1.
Qed.

Lemma X11_witness :
  match main_loop 3 example_api scenario_world with
  | Done (api', w') =>
      appBase api' = appBase example_api /\
      (exists evs, trace w' = trace scenario_world ++ evs) /\
      (forall x, outside_player_angle example_api x ->
                 target w' !! x = target scenario_world !! x)
  | Abort _ => False
  end.
Proof.
  destruct (main_loop 3 example_api scenario_world) as [[api' w']|f] eqn:Hrun.
  - exact (X11_loop_writes_player_angle_only 3 example_api api' scenario_world w' Hrun).
  - vm_compute in Hrun. discriminate Hrun.
Defined.

(** ** A second turn on an unchanged game *)

Lemma poke_same (data : list Z) (p : gmap Z Z) (a : Z) :
  Win32.peek p a (length data) = data ->
  Win32.poke p a data = (p, Z.of_nat (length data)).
Proof.
  revert a; induction data as [|b data IH]; intros a Hpeek; [reflexivity|].
  cbn [length Win32.peek Win32.poke] in *.
  destruct (p !! a) as [b0|] eqn:Hb0; [|discriminate].
  injection Hpeek as -> Hrest. rewrite (insert_id p a b Hb0), (IH (a + 1) Hrest).
  f_equal. lia.
Qed.

Lemma Write_same (p : gmap Z Z) (a : Z) (data : list Z) :
  Win32.peek p a (length data) = data -> Memory.Write p a data = Done p.
Proof.
  intros Hpeek. unfold Memory.Write, Memory.write_checked, Win32.WriteProcessMemory.
  rewrite (poke_same data p a Hpeek). cbn [Win32.wr_success Win32.wr_count Win32.wr_target].
  now rewrite Z.eqb_refl.
Qed.

Lemma field_region_apart (api : SuperHexagonApi) (o1 o2 w1 w2 : Z) :
  0 <= w1 -> 0 <= w2 -> o1 + w1 <= o2 -> o2 + w2 <= o1 + 4294967296 ->
  Api.field api o1 + w1 <= Api.field api o2 \/
  Api.field api o2 + w2 <= Api.field api o1.
Proof.
  intros Hw1 Hw2 H12 H21. unfold Api.field, wrap32.
  pose proof (Z.mod_pos_bound (appBase api + o1) 4294967296 ltac:(lia)).
  pose proof (Z.mod_pos_bound (appBase api + o2) 4294967296 ltac:(lia)).
  rewrite (Z.mod_eq (appBase api + o1) 4294967296) in * by lia.
  rewrite (Z.mod_eq (appBase api + o2) 4294967296) in * by lia.
  lia.
Qed.

(** The fields and the part of the wall table that lie below the player
    angle in the layout of the game are not reached by [SetPlayerSlot]. *)
Lemma region_outside_player_angle (api : SuperHexagonApi) (o size x : Z) :
  0 <= o -> 0 <= size -> o + size <= Offsets.PlayerAngle2 ->
  Api.field api o <= x < Api.field api o + size ->
  outside_player_angle api x.
Proof.
  intros Ho Hsize Hend Hx. unfold Offsets.PlayerAngle2 in Hend.
  pose proof (field_region_apart api o Offsets.PlayerAngle size 4 Hsize ltac:(lia)
                ltac:(unfold Offsets.PlayerAngle; lia)
                ltac:(unfold Offsets.PlayerAngle; lia)).
  pose proof (field_region_apart api o Offsets.PlayerAngle2 size 4 Hsize ltac:(lia)
                ltac:(unfold Offsets.PlayerAngle2; lia)
                ltac:(unfold Offsets.PlayerAngle2; lia)).
  unfold outside_player_angle. lia.
Qed.

Lemma Read_DWORD_agree (p q : gmap Z Z) (a : Z) :
  (forall x, a <= x < a + 4 -> p !! x = q !! x) ->
  Memory.Read_DWORD p a = Memory.Read_DWORD q a.
Proof. intros H. unfold Memory.Read_DWORD. now rewrite (Read_agree p q a 4 H). Qed.

Lemma UpdateWalls_agree (api : SuperHexagonApi) (p q : gmap Z Z) (nw : Z) :
  Api.GetNumWalls api p = Done nw -> nw <= 501 ->
  (forall x, outside_player_angle api x -> q !! x = p !! x) ->
  Api.UpdateWalls api q = Api.UpdateWalls api p.
Proof.
  intros Hcount Hnw Hsame. unfold Api.UpdateWalls.
  assert (Hq : Api.GetNumWalls api q = Done nw).
  { rewrite <- Hcount. unfold Api.GetNumWalls. apply Read_DWORD_agree.
    intros x Hx. apply Hsame.
    apply (region_outside_player_angle api Offsets.NumWalls 4 x);
      [unfold Offsets.NumWalls; lia | lia
      | unfold Offsets.NumWalls, Offsets.PlayerAngle2; lia | exact Hx]. }
  rewrite Hq, Hcount. cbn [mbind run_bind].
  replace (Memory.ReadBytes q (Api.field api Offsets.FirstWall) (sizeof_Wall * nw))
    with (Memory.ReadBytes p (Api.field api Offsets.FirstWall) (sizeof_Wall * nw));
    [reflexivity|].
  symmetry. apply (Read_agree q p). intros x Hx. apply Hsame.
  unfold sizeof_Wall in Hx.
  apply (region_outside_player_angle api Offsets.FirstWall (20 * nw) x);
    [unfold Offsets.FirstWall; lia | lia
    | unfold Offsets.FirstWall, Offsets.PlayerAngle2; lia | exact Hx].
Qed.

Lemma SetPlayerSlot_again (api : SuperHexagonApi) (p p' : gmap Z Z) (s : Z) :
  Api.SetPlayerSlot api p s = Done p' ->
  Api.SetPlayerSlot api p' s = Done p'.
Proof.
  intros Hset.
  destruct (SetPlayerSlot_inv api p p' s Hset) as (n & p1 & Hn & Hne & Hw1 & Hw2).
  assert (Hn' : Api.GetNumSlots api p' = Done n).
  { rewrite <- Hn. unfold Api.GetNumSlots. apply Read_DWORD_agree.
    intros x Hx. apply (SetPlayerSlot_frame api p p' s Hset).
    apply (region_outside_player_angle api Offsets.NumSlots 4 x);
      [unfold Offsets.NumSlots; lia | lia
      | unfold Offsets.NumSlots, Offsets.PlayerAngle2; lia | exact Hx]. }
  rewrite (SetPlayerSlot_eq api p' s n Hn' Hne).
  unfold Memory.Write_DWORD in *.
  set (bytes := to_bytes 4 (wrap32 (wrap32 (360 / n * (s mod n)) + 180 / n))) in *.
  assert (Hlen : length bytes = 4%nat) by apply length_to_bytes.
  pose proof (field_apart api Offsets.PlayerAngle2 Offsets.PlayerAngle 4
                ltac:(lia) ltac:(unfold Offsets.PlayerAngle2, Offsets.PlayerAngle; lia)
                ltac:(unfold Offsets.PlayerAngle2, Offsets.PlayerAngle; lia)) as Hapart.
  rewrite (Write_same p' (Api.field api Offsets.PlayerAngle) bytes).
  - cbn [mbind run_bind]. apply Write_same. exact (Write_stored _ _ _ _ Hw2).
  - rewrite <- (Write_stored _ _ _ _ Hw1) at 2. apply peek_agree.
    intros x Hx. apply (Write_outside _ _ _ _ x Hw2). rewrite Hlen in *. lia.
Qed.

(** X12. While the game does not change and its wall count is at most 501
    (beyond that the wall table read by the bot runs into the player-angle
    fields), a turn that follows a completed turn completes too, reads the
    same walls, prints the same events and leaves the target as it is. *)
Theorem X12_next_turn_repeats_the_turn
    (api api1 : SuperHexagonApi) (w w1 : World) (nw : Z) :
  iteration api w = Done (api1, w1) ->
  Api.GetNumWalls api (target w) = Done nw ->
  nw <= 501 ->
  exists evs,
    trace w1 = trace w ++ evs /\
    iteration api1 w1 = Done (api1, {| target := target w1; trace := trace w1 ++ evs |}).
Proof.
  intros Hturn Hcount Hnw.
  destruct (iteration_frame api api1 w w1 Hturn) as (Hbase & _ & Hframe).
  apply iteration_inv in Hturn as (Hupdate & Hcases).
  assert (Hfield : forall o, Api.field api1 o = Api.field api o)
    by (intros o; unfold Api.field; now rewrite Hbase).
  assert (Hupdate1 : Api.UpdateWalls api1 (target w1) = Done api1).
  { transitivity (Api.UpdateWalls api (target w1)).
    { unfold Api.UpdateWalls, Api.GetNumWalls. now rewrite !Hfield, Hbase. }
    rewrite (UpdateWalls_agree api (target w) (target w1) nw Hcount Hnw Hframe).
    exact Hupdate. }
  assert (Hread : forall o, 0 <= o -> o + 4 <= Offsets.PlayerAngle2 ->
            Memory.Read_DWORD (target w1) (Api.field api1 o)
            = Memory.Read_DWORD (target w) (Api.field api1 o)).
  { intros o Ho Hend. apply Read_DWORD_agree. intros x Hx. apply Hframe.
    rewrite Hfield in Hx.
    now apply (region_outside_player_angle api o 4 x). }
  destruct Hcases as [(Hws & ->)|(Hws & n & r & wa & p' & Hn & Hr & Hwa & Hset & ->)];
    cbn [target trace] in *.
  - exists [Sleep 10; ClearScreen]. split; [reflexivity|].
    unfold iteration. cbn [target trace]. rewrite Hupdate1. cbn [mbind run_bind].
    rewrite Hws. reflexivity.
  - exists ([StatusLine r wa] ++ [Sleep 10; ClearScreen]).
    split; [now rewrite app_assoc|].
    rewrite (iteration_nonempty api1 api1 _ n r wa p'); cbn [target trace]; auto.
    + now rewrite app_assoc.
    + unfold Api.GetNumSlots in *. rewrite Hread; [exact Hn | |];
        unfold Offsets.NumSlots, Offsets.PlayerAngle2; lia.
    + unfold Api.GetWorldAngle in *. rewrite Hread; [exact Hwa | |];
        unfold Offsets.WorldAngle, Offsets.PlayerAngle2; lia.
    + exact (SetPlayerSlot_again api1 _ p' r Hset).
Qed.

Lemma X12_witness :
  match iteration example_api scenario_world with
  | Done (api1, w1) =>
      exists evs,
        trace w1 = trace scenario_world ++ evs /\
        iteration api1 w1
          = Done (api1, {| target := target w1; trace := trace w1 ++ evs |})
  | Abort _ => False
  end.
Proof.
  destruct (iteration example_api scenario_world) as [[api1 w1]|f] eqn:Hturn.
  - apply (X12_next_turn_repeats_the_turn example_api api1 scenario_world w1 2 Hturn).
    + vm_compute. reflexivity.
    + lia.
  - vm_compute in Hturn. discriminate Hturn.
Defined.

(** ** Reading the slot back *)

(** X13. With 1 to 107 slots, reading the slot back after
    [SetPlayerSlot(s)] gives a valid slot index that is never above the
    requested slot [s mod n]: the truncated divisions can only pull the
    player towards lower slots. *)
Theorem X13_slot_read_back_is_valid_and_not_above
    (api : SuperHexagonApi) (p p' : gmap Z Z) (s n : Z) :
  Api.GetNumSlots api p = Done n ->
  1 <= n <= 107 ->
  Api.SetPlayerSlot api p s = Done p' ->
  exists r, Api.GetPlayerSlot api p' = Done r /\ 0 <= r <= s mod n /\ r < n.
Proof.
  intros Hn Hrange Hset.
  destruct (SetPlayerSlot_Done api p s n p' Hn ltac:(lia) Hset) as (Hangle & _ & Hn' & _).
  pose proof (slot_centre_below_360 n s ltac:(lia)) as Hbelow.
  rewrite (GetPlayerSlot_float api p' _ n Hangle Hn').
  rewrite float_slot_exact by lia.
  eexists. split; [reflexivity|].
  pose proof (Z.mod_pos_bound s n ltac:(lia)) as Hk.
  pose proof (Z.div_pos 360 n ltac:(lia) ltac:(lia)) as Hq0.
  pose proof (Z.div_pos 180 n ltac:(lia) ltac:(lia)) as Hh0.
  pose proof (Z.mul_div_le 360 n ltac:(lia)) as Hq.
  pose proof (Z.mul_div_le 180 n ltac:(lia)) as Hh.
  set (k := s mod n) in *. set (q := 360 / n) in *. set (h := 180 / n) in *.
  assert (Hup : (q * k + h) * n / 360 < k + 1).
  { apply Z.div_lt_upper_bound; [lia|].
    assert (n * q * k <= 360 * k) by (apply Z.mul_le_mono_nonneg_r; lia).
    lia. }
  split; [split; [apply Z.div_pos; nia | lia] | lia].
Qed.

Lemma X13_witness :
  match Api.SetPlayerSlot example_api (example_target 19 0 0 []) 10 with
  | Done p' =>
      exists r, Api.GetPlayerSlot example_api p' = Done r /\ 0 <= r <= 10 mod 19 /\ r < 19
  | Abort _ => False
  end.
Proof.
  destruct (Api.SetPlayerSlot example_api (example_target 19 0 0 []) 10)
    as [p'|f] eqn:Hset.
  - apply (X13_slot_read_back_is_valid_and_not_above example_api
             (example_target 19 0 0 []) p' 10 19);
      [vm_compute; reflexivity | lia | exact Hset].
  - vm_compute in Hset. discriminate Hset.
Defined.
